(** * Two-level (FKS) perfect hashing: a shallow embedding of
      [3_perfect_hashing_fks.cpp] and the properties of its
      [insert] / [search] / [buildSecondaryTable] operations.

    Conventions of the embedding.
    - C++ [int] and [long long] values are integers of [Z]; the places where
      the source narrows a [long long] to an [int] go through [to_int], the
      two's-complement wrap-around.
    - Undefined behaviour of the source (a vector indexed out of range, a
      division by zero, a signed overflow) and an exception escaping the
      class ([resize] with a negative count) are the result [None].
    - [rand()] is the C library's process-wide generator.  It is reseeded
      from the clock at every [randomizeHashFunction], so its results are
      taken from an oracle [rand : nat -> Z] giving the value of the i-th
      call of the process; the number of calls made so far is threaded
      through the operations next to the object. *)

From Stdlib Require Import ZArith Lia.
From stdpp Require Import base decidable option list gmap.

#[local] Open Scope Z_scope.

(** ** Machine integers *)

Definition INT_MIN : Z := -2147483648.
Definition INT_MAX : Z := 2147483647.

(** Narrowing conversion to a 32-bit [int]. *)
Definition to_int (z : Z) : Z := (z + 2147483648) mod 4294967296 - 2147483648.

(** [x % y] on [int]s: truncated remainder, undefined for [y = 0] and for
    [INT_MIN % -1]. *)
Definition int_rem (x y : Z) : option Z :=
  if decide (y = 0 ∨ (x = INT_MIN ∧ y = -1)) then None else Some (Z.rem x y).

(** [v[i]] with an [int] index: reading and writing a vector element. *)
Definition at_ {A} (v : list A) (i : Z) : option A :=
  if decide (0 ≤ i) then v !! Z.to_nat i else None.

Definition store {A} (v : list A) (i : Z) (x : A) : option (list A) :=
  if decide (0 ≤ i < Z.of_nat (length v)) then Some (<[Z.to_nat i := x]> v) else None.

(** ** The data model *)

Module SecondaryTable.
Record t : Type := mk {
  table : list Z;
  size : Z;
  a : Z;
  b : Z;
  p : Z   (* Hash function parameters: (a*x + b) % p *)
}.

(** The default constructor. *)
Definition init : t := mk [] 0 0 0 0.

Definition set_size (v : Z) (s : t) : t := mk (table s) v (a s) (b s) (p s).
Definition set_p (v : Z) (s : t) : t := mk (table s) (size s) (a s) (b s) v.
End SecondaryTable.

Record PerfectHashing : Type := mkPerfectHashing {
  buckets : list (list Z);                  (* Level 1: primary buckets *)
  secondLevel : list SecondaryTable.t;      (* Level 2: secondary tables *)
  primarySize : Z;
  a1 : Z;
  b1 : Z;
  p1 : Z                                    (* Level 1 parameters *)
}.

Definition set_buckets (v : list (list Z)) (s : PerfectHashing) : PerfectHashing :=
  mkPerfectHashing v (secondLevel s) (primarySize s) (a1 s) (b1 s) (p1 s).
Definition set_secondLevel (v : list SecondaryTable.t) (s : PerfectHashing) : PerfectHashing :=
  mkPerfectHashing (buckets s) v (primarySize s) (a1 s) (b1 s) (p1 s).

Definition PRIME : Z := 2147483647.
Definition maxAttempts : Z := 100.

(** The value [table.assign(secondarySize, -1)] fills the slots with. *)
Definition EMPTY : Z := -1.

(** Upper end of the range of [rand()]: the library's [RAND_MAX], at most
    [INT_MAX] since [rand] returns an [int]. *)
Definition RAND_MAX : Z := INT_MAX.

(** ** The operations *)

(** [hashFunction]: [((long long)a * key + b) % p], returned as an [int].
    The sum is computed in [long long], which holds it for all [int]
    operands. *)
Definition hashFunction (key a b p : Z) : option Z :=
  if decide (p = 0) then None else Some (to_int (Z.rem (a * key + b) p)).

(** [hashFunction(key, a, b, p) % tableSize], the slot computation shared by
    [isCollisionFree], the placement loop and [search]. *)
Definition slot (key a b p tableSize : Z) : option Z :=
  h0 ← hashFunction key a b p;
  int_rem h0 tableSize.

Section Operations.

(** [rand i] is the result of the [i]-th call of [rand()]. *)
Variable rand : nat → Z.

(** [randomizeHashFunction(a, b, p, prime)]: the call inside [srand]'s
    argument takes one value of the generator, [a] and [b] the next two.
    The results are the new [a], [b], [p] and the number of calls made.
    The reference parameter [p] stands for the [int] member it is called
    with ([p1], or the [p] of a secondary table), which receives [prime]. *)
Definition randomizeHashFunction (prime : Z) (c : nat) : Z * Z * Z * nat :=
  let a := to_int (1 + Z.rem (rand (c + 1)) (prime - 1)) in
  let b := to_int (Z.rem (rand (c + 2)) prime) in
  (a, b, to_int prime, (c + 3)%nat).

(** [isCollisionFree]: the loop over [keys] with the set [hashed]. *)
Fixpoint collisionLoop (keys : list Z) (a b p tableSize : Z) (hashed : gset Z)
  : option bool :=
  match keys with
  | [] => Some true
  | key :: rest =>
      h ← slot key a b p tableSize;
      if decide (h ∈ hashed) then Some false
      else collisionLoop rest a b p tableSize ({[h]} ∪ hashed)
  end.

Definition isCollisionFree (keys : list Z) (a b p tableSize : Z) : option bool :=
  collisionLoop keys a b p tableSize ∅.

(** The loop "Place keys in secondary table". *)
Fixpoint placeKeys (keys : list Z) (a b secondarySize : Z) (tbl : list Z)
  : option (list Z) :=
  match keys with
  | [] => Some tbl
  | key :: rest =>
      h ← slot key a b PRIME secondarySize;
      tbl' ← store tbl h key;
      placeKeys rest a b secondarySize tbl'
  end.

(** The [while (attempts < maxAttempts)] loop of [buildSecondaryTable], on
    the secondary table of the bucket; [n] is [maxAttempts - attempts]. *)
Fixpoint attemptLoop (n : nat) (keys : list Z) (secondarySize : Z)
    (t : SecondaryTable.t) (c : nat) : option (bool * SecondaryTable.t * nat) :=
  match n with
  | O => Some (false, t, c)
  | S n' =>
      let '(a, b, p, c') := randomizeHashFunction PRIME c in
      let t1 := SecondaryTable.set_p p t in
      free ← isCollisionFree keys a b PRIME secondarySize;
      if free : bool then
        tbl ← placeKeys keys a b secondarySize
                (replicate (Z.to_nat secondarySize) EMPTY);
        Some (true, SecondaryTable.mk tbl secondarySize a b p, c')
      else attemptLoop n' keys secondarySize t1 c'
  end.

(** [buildSecondaryTable], on the key list and the secondary table of the
    bucket. *)
Definition buildTable (keys : list Z) (t : SecondaryTable.t) (c : nat)
  : option (bool * SecondaryTable.t * nat) :=
  let k := Z.of_nat (length keys) in
  if decide (k = 0) then Some (true, SecondaryTable.set_size 0 t, c)
  else if decide (k = 1) then
    key0 ← keys !! 0%nat;
    Some (true,
          SecondaryTable.mk (<[0%nat := key0]> (resize 1 0 (SecondaryTable.table t)))
            1 1 0 PRIME,
          c)
  else if decide (INT_MAX < k * k) then None
  else attemptLoop (Z.to_nat (maxAttempts - 0)) keys (k * k) t c.

Definition buildSecondaryTable (bucketIdx : Z) (s : PerfectHashing) (c : nat)
  : option (bool * PerfectHashing * nat) :=
  keys ← at_ (buckets s) bucketIdx;
  t ← at_ (secondLevel s) bucketIdx;
  '(ok, t', c') ← buildTable keys t c;
  Some (ok, set_secondLevel (<[Z.to_nat bucketIdx := t']> (secondLevel s)) s, c').

(** The constructor [PerfectHashing(n)]. *)
Definition construct (n : Z) (c : nat) : option (PerfectHashing * nat) :=
  if decide (n < 0) then None
  else
    let '(a, b, p, c') := randomizeHashFunction PRIME c in
    Some (mkPerfectHashing (replicate (Z.to_nat n) [])
            (replicate (Z.to_nat n) SecondaryTable.init) n a b p, c').

(** The primary bucket of a key: [hashFunction(key, a1, b1, p1) % primarySize]. *)
Definition bucketIndex (key : Z) (s : PerfectHashing) : option Z :=
  slot key (a1 s) (b1 s) (p1 s) (primarySize s).

Definition insert (key : Z) (s : PerfectHashing) (c : nat)
  : option (bool * PerfectHashing * nat) :=
  bucketIdx ← bucketIndex key s;
  keys ← at_ (buckets s) bucketIdx;
  buildSecondaryTable bucketIdx
    (set_buckets (<[Z.to_nat bucketIdx := keys ++ [key]]> (buckets s)) s) c.

(** The secondary slot of a key in a table:
    [hashFunction(key, a, b, p) % size]. *)
Definition slotOf (key : Z) (t : SecondaryTable.t) : option Z :=
  slot key (SecondaryTable.a t) (SecondaryTable.b t) (SecondaryTable.p t)
    (SecondaryTable.size t).

(** The level-2 part of [search]. *)
Definition probe (key : Z) (secTable : SecondaryTable.t) : option bool :=
  if decide (SecondaryTable.size secTable = 0) then Some false
  else
    h ← slotOf key secTable;
    x ← at_ (SecondaryTable.table secTable) h;
    Some (bool_decide (x = key)).

Definition search (key : Z) (s : PerfectHashing) : option bool :=
  bucketIdx ← bucketIndex key s;
  secTable ← at_ (secondLevel s) bucketIdx;
  probe key secTable.

(** A sequence of [insert] calls, whatever each of them returns. *)
Fixpoint insertAll (keys : list Z) (s : PerfectHashing) (c : nat)
  : option (PerfectHashing * nat) :=
  match keys with
  | [] => Some (s, c)
  | key :: rest =>
      '(_, s', c') ← insert key s c;
      insertAll rest s' c'
  end.

(** The parameters drawn by the [j]-th attempt (from 0) of a randomized
    search that starts after [c] calls of [rand()]. *)
Definition attempt_a (c j : nat) : Z :=
  to_int (1 + Z.rem (rand (c + 3 * j + 1)) (PRIME - 1)).
Definition attempt_b (c j : nat) : Z :=
  to_int (Z.rem (rand (c + 3 * j + 2)) PRIME).

End Operations.

(** ** Predicates on tables and states used by the proofs *)

(** The table after a failed randomized search of [n] attempts: only the
    modulus was written, by [randomizeHashFunction]. *)
Definition after_failure (n : nat) (t : SecondaryTable.t) : SecondaryTable.t :=
  match n with O => t | S _ => SecondaryTable.set_p PRIME t end.

(** What a successful build over [keys] establishes of the table. *)
Record built (keys : list Z) (t : SecondaryTable.t) : Prop := {
  built_p : SecondaryTable.p t = PRIME;
  built_size :
    SecondaryTable.size t =
      if decide (length keys = 1%nat) then 1
      else Z.of_nat (length keys) * Z.of_nat (length keys);
  built_length :
    Z.of_nat (length (SecondaryTable.table t)) = SecondaryTable.size t;
  built_slots :
    ∀ key, key ∈ keys →
      ∃ h, slotOf key t = Some h ∧ at_ (SecondaryTable.table t) h = Some key;
  built_distinct :
    ∀ (i j : nat) ki kj, i ≠ j → keys !! i = Some ki → keys !! j = Some kj →
      ∃ hi hj, slotOf ki t = Some hi ∧ slotOf kj t = Some hj ∧ hi ≠ hj;
  built_contents :
    ∀ x, x ∈ SecondaryTable.table t → x = EMPTY ∨ x ∈ keys
}.

(** The standing relation between a bucket's key list and its secondary
    table: an empty bucket has the empty table; otherwise the table was
    built at some point, so its modulus is [PRIME], its slot array has
    [size] slots and holds keys of the list or the filler. *)
Definition table_wf (keys : list Z) (t : SecondaryTable.t) : Prop :=
  match keys with
  | [] => SecondaryTable.size t = 0
  | _ :: _ =>
      SecondaryTable.p t = PRIME ∧ 0 < SecondaryTable.size t ∧
      Z.of_nat (length (SecondaryTable.table t)) = SecondaryTable.size t ∧
      ∀ x, x ∈ SecondaryTable.table t → x = EMPTY ∨ x ∈ keys
  end.

Definition wf (s : PerfectHashing) : Prop :=
  0 ≤ primarySize s ∧
  Z.of_nat (length (buckets s)) = primarySize s ∧
  Z.of_nat (length (secondLevel s)) = primarySize s ∧
  p1 s = PRIME ∧
  ∀ idx keys t,
    at_ (buckets s) idx = Some keys → at_ (secondLevel s) idx = Some t →
    table_wf keys t.

(** All multipliers and offsets are non-negative. *)
Definition nonneg_params (s : PerfectHashing) : Prop :=
  0 ≤ a1 s ∧ 0 ≤ b1 s ∧
  ∀ idx t, at_ (secondLevel s) idx = Some t →
    0 ≤ SecondaryTable.a t ∧ 0 ≤ SecondaryTable.b t.

(** Every key of every bucket is one of [ks]. *)
Definition keys_from (ks : list Z) (s : PerfectHashing) : Prop :=
  ∀ idx keys x, at_ (buckets s) idx = Some keys → x ∈ keys → x ∈ ks.

(** [key] is in the list of its primary bucket. *)
Definition listed (key : Z) (s : PerfectHashing) : Prop :=
  ∃ idx keys, bucketIndex key s = Some idx ∧
    at_ (buckets s) idx = Some keys ∧ key ∈ keys.

(** [key] is in the list of its primary bucket and the bucket's secondary
    table holds it at its slot. *)
Definition indexed (key : Z) (s : PerfectHashing) : Prop :=
  ∃ idx keys t, bucketIndex key s = Some idx ∧
    at_ (buckets s) idx = Some keys ∧ key ∈ keys ∧
    at_ (secondLevel s) idx = Some t ∧
    SecondaryTable.p t = PRIME ∧ probe key t = Some true.


(** ** The reporting operations *)

(** [statistics]: the loop that adds up the bucket sizes and takes their
    maximum.  The result is the pair ([totalKeys], [maxBucketSize]) that is
    printed; the two floating-point quotients printed next to them are left
    out.  [n] counts the turns left, [i] is the loop variable. *)
Fixpoint statisticsLoop (n : nat) (i : Z) (s : PerfectHashing)
    (totalKeys maxBucketSize : Z) : option (Z * Z) :=
  match n with
  | O => Some (totalKeys, maxBucketSize)
  | S n' =>
      keys ← at_ (buckets s) i;
      statisticsLoop n' (i + 1) s
        (to_int (totalKeys + Z.of_nat (length keys)))
        (Z.max maxBucketSize (to_int (Z.of_nat (length keys))))
  end.

Definition statistics (s : PerfectHashing) : option (Z * Z) :=
  statisticsLoop (Z.to_nat (primarySize s)) 0 s 0 0.

(** [display]: what is printed for one secondary table. *)
Record TableReport : Type := mkTableReport {
  shown_size : Z;
  shown_p : Z;
  shown_a : Z;
  shown_b : Z;
  shown_contents : list (Z * Z);   (* the pairs "(j:table[j])" *)
  shown_more : bool                (* whether "..." follows *)
}.

(** The loop over [j < min((int)table.size(), 10)], on the slots from [j]
    on: the slots that differ from -1 are printed with their index. *)
Fixpoint contentsFrom (j : Z) (tbl : list Z) : list (Z * Z) :=
  match tbl with
  | [] => []
  | x :: rest =>
      if decide (x = -1) then contentsFrom (j + 1) rest
      else (j, x) :: contentsFrom (j + 1) rest
  end.

Definition displayTable (t : SecondaryTable.t) : TableReport :=
  let len := Z.of_nat (length (SecondaryTable.table t)) in
  mkTableReport (SecondaryTable.size t) (SecondaryTable.p t)
    (SecondaryTable.a t) (SecondaryTable.b t)
    (contentsFrom 0 (take (Z.to_nat (Z.min (to_int len) 10)) (SecondaryTable.table t)))
    (bool_decide (10 < len)).

(** What is printed for bucket [i]: its index, its keys and, when it has
    keys, its secondary table. *)
Definition displayBucket (i : Z) (s : PerfectHashing)
  : option (Z * list Z * option TableReport) :=
  keys ← at_ (buckets s) i;
  if decide (0 < Z.of_nat (length keys)) then
    t ← at_ (secondLevel s) i;
    Some (i, keys, Some (displayTable t))
  else Some (i, keys, None).

Fixpoint displayLoop (n : nat) (i : Z) (s : PerfectHashing)
  : option (list (Z * list Z * option TableReport)) :=
  match n with
  | O => Some []
  | S n' =>
      r ← displayBucket i s;
      rs ← displayLoop n' (i + 1) s;
      Some (r :: rs)
  end.

Definition display (s : PerfectHashing)
  : option (list (Z * list Z * option TableReport)) :=
  displayLoop (Z.to_nat (primarySize s)) 0 s.

(** ** The demonstration *)

Section Demo.

Variable rand : nat → Z.

(** The loops of [main] that insert each key of a list and print whether
    the insert succeeded: the results in order, and the table afterwards. *)
Fixpoint insertEach (keys : list Z) (s : PerfectHashing) (c : nat)
  : option (list bool * PerfectHashing * nat) :=
  match keys with
  | [] => Some ([], s, c)
  | key :: rest =>
      '(ok, s', c') ← insert rand key s c;
      '(oks, s'', c'') ← insertEach rest s' c';
      Some (ok :: oks, s'', c'')
  end.

(** The loops of [main] that search each key of a list and print whether
    it was found. *)
Definition searchEach (keys : list Z) (s : PerfectHashing) : option (list bool) :=
  mapM (λ key, search key s) keys.

(** [main]: the four lists of answers it prints, for test cases 1 to 4. *)
Definition main (c : nat) : option (list bool * list bool * list bool * list bool) :=
  '(hashTable, c) ← construct rand 5 c;
  '(test1, hashTable, c) ← insertEach [10; 25; 35; 45; 15; 20; 30] hashTable c;
  _ ← display hashTable;
  _ ← statistics hashTable;
  test2 ← searchEach [25; 100; 15; 50; 30] hashTable;
  '(test3, hashTable, c) ← insertEach [50; 60; 70] hashTable c;
  _ ← display hashTable;
  _ ← statistics hashTable;
  test4 ← searchEach [10; 25; 35; 45; 15; 20; 30; 50; 60; 70; 99] hashTable;
  Some (test1, test2, test3, test4).

End Demo.

(** ** Further predicates used by the proofs *)

(** Every non-filler value of the slot array is a key of [keys] sitting at
    its own slot. *)
Definition exact (keys : list Z) (t : SecondaryTable.t) : Prop :=
  ∀ j x, at_ (SecondaryTable.table t) j = Some x → x ≠ EMPTY →
    x ∈ keys ∧ slotOf x t = Some j.

(** The keys of a bucket that its table indexes: those that were in the
    list at the last successful build. *)
Definition indexes (pre keys : list Z) (t : SecondaryTable.t) : Prop :=
  pre `prefix_of` keys ∧ (keys ≠ [] → pre ≠ []) ∧
  SecondaryTable.size t = Z.of_nat (length pre) * Z.of_nat (length pre) ∧
  SecondaryTable.size t ≤ INT_MAX ∧
  (pre ≠ [] → built pre t ∧ exact pre t).

Definition all_indexed (s : PerfectHashing) : Prop :=
  ∀ idx keys t,
    at_ (buckets s) idx = Some keys → at_ (secondLevel s) idx = Some t →
    ∃ pre, indexes pre keys t.

(** Every key of a bucket's list is routed to that bucket. *)
Definition routed (s : PerfectHashing) : Prop :=
  ∀ idx keys key,
    at_ (buckets s) idx = Some keys → key ∈ keys → bucketIndex key s = Some idx.

(** The number of keys in all the buckets. *)
Definition keyCount (s : PerfectHashing) : nat := sum_list (length <$> buckets s).

(** What holds of a table of [n > 0] buckets after the keys [ks] were
    inserted into it, under a generator in range. *)
Record reached (ks : list Z) (s : PerfectHashing) : Prop := {
  reached_wf : wf s;
  reached_nonneg : nonneg_params s;
  reached_keys : keys_from ks s;
  reached_indexed : all_indexed s;
  reached_routed : routed s;
  reached_size : 0 < primarySize s;
  reached_count : keyCount s = length ks
}.

(** ** Concrete generators for the examples

    Each is a possible run of [rand()]: all values lie in [0, RAND_MAX]. *)

Definition rand_scaled (i : nat) : Z := (Z.of_nat i * 7919) mod 2147483648.
Definition rand_index (i : nat) : Z := Z.of_nat i mod 2147483648.
Definition rand_three (_ : nat) : Z := 3.
Definition rand_zero (_ : nat) : Z := 0.

(** ** Machine arithmetic *)

Lemma to_int_id (z : Z) : INT_MIN ≤ z ≤ INT_MAX → to_int z = z.
Proof.
  unfold to_int, INT_MIN, INT_MAX. intros Hz.
  rewrite Z.mod_small; lia.
Qed.

Lemma to_int_range (z : Z) : INT_MIN ≤ to_int z ≤ INT_MAX.
Proof.
  unfold to_int, INT_MIN, INT_MAX.
  pose proof (Z.mod_pos_bound (z + 2147483648) 4294967296). lia.
Qed.

Lemma rem_PRIME_range (x : Z) : - PRIME < Z.rem x PRIME < PRIME.
Proof.
  pose proof (Z.rem_bound_abs x PRIME). unfold PRIME in *. lia.
Qed.

Lemma hashFunction_PRIME (key a b : Z) :
  hashFunction key a b PRIME = Some (Z.rem (a * key + b) PRIME).
Proof.
  unfold hashFunction. destruct (decide (PRIME = 0)) as [Hp|_]; [discriminate Hp|].
  f_equal. apply to_int_id.
  pose proof (rem_PRIME_range (a * key + b)).
  unfold INT_MIN, INT_MAX, PRIME in *. lia.
Qed.

Lemma int_rem_pos (x y : Z) : 0 < y → int_rem x y = Some (Z.rem x y).
Proof.
  intros Hy. unfold int_rem. destruct (decide _) as [H|_]; [lia|done].
Qed.

Lemma int_rem_Some (x y h : Z) : int_rem x y = Some h → y ≠ 0 ∧ h = Z.rem x y.
Proof.
  unfold int_rem. destruct (decide _) as [|H]; [done|]. intros [= <-]. split; [lia|done].
Qed.

(** The slot of a key under a table modulus [PRIME] and a positive size. *)
Lemma slot_PRIME (key a b tableSize : Z) :
  0 < tableSize →
  slot key a b PRIME tableSize = Some (Z.rem (Z.rem (a * key + b) PRIME) tableSize).
Proof.
  intros Hs. unfold slot. rewrite hashFunction_PRIME. simpl.
  by apply int_rem_pos.
Qed.

Lemma slot_nonneg_bounds (key a b tableSize : Z) :
  0 ≤ key → 0 ≤ a → 0 ≤ b → 0 < tableSize →
  0 ≤ Z.rem (Z.rem (a * key + b) PRIME) tableSize < tableSize.
Proof.
  intros Hk Ha Hb Hs. apply Z.rem_bound_pos; [|done].
  apply Z.rem_bound_pos; [nia|done].
Qed.

(** ** Vectors *)

Lemma at_Some {A} (v : list A) (i : Z) (x : A) :
  at_ v i = Some x ↔ 0 ≤ i ∧ v !! Z.to_nat i = Some x.
Proof.
  unfold at_. destruct (decide (0 ≤ i)) as [Hi|Hi].
  - split; [by intros ->|by intros [_ ->]].
  - split; [done|by intros [? _]].
Qed.

Lemma at_lt {A} (v : list A) (i : Z) (x : A) :
  at_ v i = Some x → 0 ≤ i < Z.of_nat (length v).
Proof.
  intros [Hi Hl]%at_Some. apply lookup_lt_Some in Hl. lia.
Qed.

Lemma at_is_Some {A} (v : list A) (i : Z) :
  0 ≤ i < Z.of_nat (length v) → is_Some (at_ v i).
Proof.
  intros Hi. unfold at_. case_decide; [|lia].
  apply lookup_lt_is_Some. lia.
Qed.

Lemma at_insert_eq {A} (v : list A) (i : Z) (x y : A) :
  at_ v i = Some y → at_ (<[Z.to_nat i := x]> v) i = Some x.
Proof.
  intros Hy. pose proof (at_lt _ _ _ Hy).
  apply at_Some. split; [lia|]. apply list_lookup_insert_eq. lia.
Qed.

Lemma at_insert_ne {A} (v : list A) (i j : Z) (x : A) :
  0 ≤ i → i ≠ j → at_ (<[Z.to_nat i := x]> v) j = at_ v j.
Proof.
  intros Hi Hne. unfold at_. case_decide; [|done].
  apply list_lookup_insert_ne. lia.
Qed.

Lemma store_Some {A} (v v' : list A) (i : Z) (x : A) :
  store v i x = Some v' →
  0 ≤ i < Z.of_nat (length v) ∧ v' = <[Z.to_nat i := x]> v.
Proof.
  unfold store. destruct (decide _) as [Hi|]; [|done]. by intros [= <-].
Qed.

Lemma at_store {A} (v v' : list A) (i j : Z) (x : A) :
  store v i x = Some v' →
  at_ v' j = if decide (j = i) then Some x else at_ v j.
Proof.
  intros [Hi ->]%store_Some. destruct (decide (j = i)) as [Hj|Hj].
  - subst j. destruct (at_is_Some v i Hi) as [y Hy]. by eapply at_insert_eq.
  - apply at_insert_ne; [lia|done].
Qed.

(** ** The collision check *)

(** A successful check yields the slots of the keys, which are pairwise
    distinct and none of which was in the set at the start. *)
Lemma collisionLoop_true (keys : list Z) (a b p ts : Z) (hashed : gset Z) :
  collisionLoop keys a b p ts hashed = Some true →
  ∃ hs : list Z,
    Forall2 (λ k h, slot k a b p ts = Some h) keys hs ∧
    NoDup hs ∧ ∀ h, h ∈ hs → h ∉ hashed.
Proof.
  revert hashed. induction keys as [|key rest IH]; intros hashed; simpl.
  - intros _. exists []. split_and!; [constructor|constructor|set_solver].
  - destruct (slot key a b p ts) as [h|] eqn:Hs; simpl; [|done].
    destruct (decide (h ∈ hashed)) as [|Hnew]; [done|].
    intros (hs & HF & HN & HD)%IH. exists (h :: hs). split_and!.
    + by constructor.
    + constructor; [|done]. intros Hin%HD. set_solver.
    + intros h' [->|Hin%HD]%elem_of_cons; set_solver.
Qed.

(** The check is defined as soon as every slot is. *)
Lemma collisionLoop_is_Some (keys : list Z) (a b p ts : Z) (hashed : gset Z) :
  Forall (λ k, is_Some (slot k a b p ts)) keys →
  is_Some (collisionLoop keys a b p ts hashed).
Proof.
  intros HF. revert hashed. induction HF as [|key rest [h Hs] _ IH];
    intros hashed; simpl; [done|].
  rewrite Hs. simpl. destruct (decide (h ∈ hashed)); [done|apply IH].
Qed.

Lemma slots_functional (f : Z → option Z) (keys hs : list Z) :
  Forall2 (λ k h, f k = Some h) keys hs → NoDup hs → NoDup keys.
Proof.
  induction 1 as [|k h keys hs Hk HF IH]; intros HN; [constructor|].
  apply NoDup_cons in HN as [Hh HN]. constructor; [|by apply IH].
  intros Hin. apply list_elem_of_lookup in Hin as [i Hi].
  destruct (Forall2_lookup_l _ _ _ _ _ HF Hi) as (h' & Hh' & Hfh).
  assert (h' = h) as -> by congruence.
  apply Hh. eapply list_elem_of_lookup_2. exact Hh'.
Qed.

(** A key list with a repeated key never passes the check. *)
Lemma collisionLoop_dup (keys : list Z) (a b p ts : Z) (hashed : gset Z) :
  ¬ NoDup keys → collisionLoop keys a b p ts hashed ≠ Some true.
Proof.
  intros Hdup (hs & HF & HN & _)%collisionLoop_true.
  apply Hdup. by apply (slots_functional (λ k, slot k a b p ts) keys hs).
Qed.

(** Every slot is defined under the modulus [PRIME] and a positive size. *)
Lemma isCollisionFree_is_Some (keys : list Z) (a b ts : Z) :
  0 < ts → is_Some (isCollisionFree keys a b PRIME ts).
Proof.
  intros Hts. apply collisionLoop_is_Some, Forall_forall. intros k _.
  rewrite slot_PRIME by done. done.
Qed.

(** ** The placement loop *)

Lemma placeKeys_length (keys : list Z) (a b ts : Z) (tbl tbl' : list Z) :
  placeKeys keys a b ts tbl = Some tbl' → length tbl' = length tbl.
Proof.
  revert tbl. induction keys as [|key rest IH]; intros tbl; simpl.
  - by intros [= ->].
  - destruct (slot key a b PRIME ts) as [h|]; simpl; [|done].
    destruct (store tbl h key) as [tbl1|] eqn:Hst; simpl; [|done].
    intros ->%IH. apply store_Some in Hst as [_ ->]. apply length_insert.
Qed.

(** With pairwise distinct slots, placement leaves every key in its slot
    and the other slots as they were. *)
Lemma placeKeys_spec (keys hs : list Z) (a b ts : Z) (tbl tbl' : list Z) :
  placeKeys keys a b ts tbl = Some tbl' →
  Forall2 (λ k h, slot k a b PRIME ts = Some h) keys hs →
  NoDup hs →
  (∀ i k h, keys !! i = Some k → hs !! i = Some h → at_ tbl' h = Some k) ∧
  (∀ j, j ∉ hs → at_ tbl' j = at_ tbl j).
Proof.
  intros Hp HF. revert tbl Hp.
  induction HF as [|key h rest hs Hs HF IH]; intros tbl Hp HN; simpl in *.
  - injection Hp as ->. split; [intros i k h Hk; by destruct i|done].
  - rewrite Hs in Hp. simpl in Hp.
    destruct (store tbl h key) as [tbl1|] eqn:Hst; simpl in Hp; [|done].
    apply NoDup_cons in HN as [Hh HN].
    destruct (IH _ Hp HN) as [Hin Hout]. split.
    + intros [|i] k h' Hk Hh'; simpl in *.
      * injection Hk as <-. injection Hh' as <-.
        rewrite (Hout _ Hh), (at_store _ _ _ _ _ Hst).
        by destruct (decide (h = h)).
      * by eapply Hin.
    + intros j Hj. apply not_elem_of_cons in Hj as [Hne Hj].
      rewrite (Hout _ Hj), (at_store _ _ _ _ _ Hst).
      by destruct (decide (j = h)).
Qed.

(** Placement writes keys of the list only. *)
Lemma placeKeys_contents (keys : list Z) (a b ts : Z) (tbl tbl' : list Z) :
  placeKeys keys a b ts tbl = Some tbl' →
  ∀ x, x ∈ tbl' → x ∈ tbl ∨ x ∈ keys.
Proof.
  revert tbl. induction keys as [|key rest IH]; intros tbl; simpl.
  - intros [= ->] x Hx. by left.
  - destruct (slot key a b PRIME ts) as [h|]; simpl; [|done].
    destruct (store tbl h key) as [tbl1|] eqn:Hst; simpl; [|done].
    intros Hp x Hx. apply store_Some in Hst as [Hh ->].
    destruct (IH _ Hp x Hx) as [Hin|Hin].
    + apply list_elem_of_lookup in Hin as [i Hi].
      destruct (decide (i = Z.to_nat h)) as [->|Hne].
      * rewrite list_lookup_insert_eq in Hi by lia.
        injection Hi as <-. right. by left.
      * rewrite list_lookup_insert_ne in Hi by done.
        left. by eapply list_elem_of_lookup_2.
    + right. by right.
Qed.

(** Placement is defined when every slot is inside the array. *)
Lemma placeKeys_is_Some (keys : list Z) (a b ts : Z) (tbl : list Z) :
  Forall (λ k, ∃ h, slot k a b PRIME ts = Some h ∧ 0 ≤ h < Z.of_nat (length tbl)) keys →
  is_Some (placeKeys keys a b ts tbl).
Proof.
  intros HF. revert tbl HF. induction keys as [|key rest IH]; intros tbl HF; simpl; [done|].
  apply Forall_cons in HF as [(h & Hs & Hh) HF].
  rewrite Hs. simpl. unfold store. destruct (decide _) as [_|]; [|lia]. simpl.
  apply IH. by rewrite length_insert.
Qed.

(** ** The randomized search *)

Section Search.

Variable rand : nat → Z.

Lemma randomize_attempt (c j : nat) :
  randomizeHashFunction rand PRIME (c + 3 * j) =
  (attempt_a rand c j, attempt_b rand c j, PRIME, (c + 3 * (j + 1))%nat).
Proof.
  unfold randomizeHashFunction, attempt_a, attempt_b.
  replace (c + 3 * j + 3)%nat with (c + 3 * (j + 1))%nat by lia.
  reflexivity.
Qed.

Lemma attempt_shift_a (c j : nat) : attempt_a rand (c + 3) j = attempt_a rand c (S j).
Proof. unfold attempt_a. do 4 f_equal. lia. Qed.

Lemma attempt_shift_b (c j : nat) : attempt_b rand (c + 3) j = attempt_b rand c (S j).
Proof. unfold attempt_b. do 3 f_equal. lia. Qed.

(** One turn of the loop. *)
Lemma attemptLoop_S (n : nat) (keys : list Z) (ss : Z) (t : SecondaryTable.t) (c : nat) :
  attemptLoop rand (S n) keys ss t c =
  free ← isCollisionFree keys (attempt_a rand c 0) (attempt_b rand c 0) PRIME ss;
  if free : bool then
    tbl ← placeKeys keys (attempt_a rand c 0) (attempt_b rand c 0) ss
            (replicate (Z.to_nat ss) EMPTY);
    Some (true, SecondaryTable.mk tbl ss (attempt_a rand c 0) (attempt_b rand c 0) PRIME,
          (c + 3)%nat)
  else attemptLoop rand n keys ss (SecondaryTable.set_p PRIME t) (c + 3)%nat.
Proof.
  unfold attempt_a, attempt_b. replace (c + 3 * 0 + 1)%nat with (c + 1)%nat by lia.
  replace (c + 3 * 0 + 2)%nat with (c + 2)%nat by lia. reflexivity.
Qed.

Lemma after_failure_S (n : nat) (t : SecondaryTable.t) :
  after_failure n (SecondaryTable.set_p PRIME t) = SecondaryTable.set_p PRIME t.
Proof. by destruct n. Qed.

(** The search fails exactly when every attempt found a collision; it then
    made all [n] attempts and wrote nothing but the modulus. *)
Lemma attemptLoop_false (n : nat) (keys : list Z) (ss : Z)
    (t t' : SecondaryTable.t) (c c' : nat) :
  attemptLoop rand n keys ss t c = Some (false, t', c') →
  c' = (c + 3 * n)%nat ∧ t' = after_failure n t ∧
  ∀ j, (j < n)%nat →
    isCollisionFree keys (attempt_a rand c j) (attempt_b rand c j) PRIME ss = Some false.
Proof.
  revert t c. induction n as [|n IH]; intros t c.
  - simpl. intros [= <- <-]. split_and!; [lia|done|lia].
  - rewrite attemptLoop_S.
    destruct (isCollisionFree _ _ _ _ _) as [[|]|] eqn:Hfree; simpl; [| |done].
    { destruct (placeKeys _ _ _ _ _); simpl; [|done]. intros [=]. }
    intros (-> & -> & Hall)%IH. split_and!; [lia|by rewrite after_failure_S|].
    intros [|j] Hj; [exact Hfree|].
    rewrite <- attempt_shift_a, <- attempt_shift_b. apply Hall. lia.
Qed.

(** Conversely, [n] colliding attempts make the search fail. *)
Lemma attemptLoop_all_collide (n : nat) (keys : list Z) (ss : Z)
    (t : SecondaryTable.t) (c : nat) :
  (∀ j, (j < n)%nat →
    isCollisionFree keys (attempt_a rand c j) (attempt_b rand c j) PRIME ss = Some false) →
  attemptLoop rand n keys ss t c = Some (false, after_failure n t, (c + 3 * n)%nat).
Proof.
  revert t c. induction n as [|n IH]; intros t c Hall.
  - by replace (c + 3 * 0)%nat with c by lia.
  - rewrite attemptLoop_S, (Hall 0%nat) by lia. simpl.
    rewrite IH.
    + rewrite after_failure_S. by replace (c + 3 + 3 * n)%nat with (c + 3 * S n)%nat by lia.
    + intros j Hj. rewrite attempt_shift_a, attempt_shift_b. apply Hall. lia.
Qed.

(** A successful search stops at the first collision-free attempt [j] and
    installs the table placed under that attempt's parameters. *)
Lemma attemptLoop_true (n : nat) (keys : list Z) (ss : Z)
    (t t' : SecondaryTable.t) (c c' : nat) :
  attemptLoop rand n keys ss t c = Some (true, t', c') →
  ∃ (j : nat) (tbl : list Z),
    (j < n)%nat ∧ c' = (c + 3 * (j + 1))%nat ∧
    isCollisionFree keys (attempt_a rand c j) (attempt_b rand c j) PRIME ss = Some true ∧
    placeKeys keys (attempt_a rand c j) (attempt_b rand c j) ss
      (replicate (Z.to_nat ss) EMPTY) = Some tbl ∧
    t' = SecondaryTable.mk tbl ss (attempt_a rand c j) (attempt_b rand c j) PRIME.
Proof.
  revert t c. induction n as [|n IH]; intros t c; [done|].
  rewrite attemptLoop_S.
  destruct (isCollisionFree _ _ _ _ _) as [[|]|] eqn:Hfree; simpl; [| |done].
  - destruct (placeKeys _ _ _ _ _) as [tbl|] eqn:Hplace; simpl; [|done].
    intros [= <- <-]. exists 0%nat, tbl. split_and!; [lia|lia|done..].
  - intros (j & tbl & Hj & -> & Hfree' & Hplace & ->)%IH.
    rewrite attempt_shift_a, attempt_shift_b in *.
    exists (S j), tbl. split_and!; [lia|lia|done..].
Qed.

(** The search always stops within its [n] attempts: the number of calls of
    [rand()] it makes is at most [3 * n]. *)
Lemma attemptLoop_calls (n : nat) (keys : list Z) (ss : Z)
    (t t' : SecondaryTable.t) (c c' : nat) (ok : bool) :
  attemptLoop rand n keys ss t c = Some (ok, t', c') →
  (c ≤ c' ≤ c + 3 * n)%nat.
Proof.
  destruct ok.
  - intros (j & tbl & Hj & -> & _)%attemptLoop_true. lia.
  - intros (-> & _)%attemptLoop_false. lia.
Qed.

(** ** [buildSecondaryTable] on one bucket *)

Lemma buildTable_single (key0 : Z) (t : SecondaryTable.t) (c : nat) :
  buildTable rand [key0] t c =
  Some (true, SecondaryTable.mk [key0] 1 1 0 PRIME, c).
Proof.
  unfold buildTable. simpl.
  destruct (SecondaryTable.table t) as [|x [|y tbl]]; reflexivity.
Qed.

Lemma built_single (key0 : Z) : built [key0] (SecondaryTable.mk [key0] 1 1 0 PRIME).
Proof.
  assert (Hslot : ∀ k, slotOf k (SecondaryTable.mk [key0] 1 1 0 PRIME) = Some 0).
  { intros k. unfold slotOf. simpl. rewrite slot_PRIME by lia. by rewrite Z.rem_1_r. }
  split; simpl; try done.
  - intros key ->%list_elem_of_singleton. exists 0. by rewrite Hslot.
  - intros [|i] [|j] ki kj Hne Hi Hj; simpl in *; done.
  - intros x ->%list_elem_of_singleton. right. by apply list_elem_of_singleton.
Qed.

(** The size the randomized search is run with. *)
Lemma buildTable_search (keys : list Z) (t : SecondaryTable.t) (c : nat) :
  (2 ≤ length keys)%nat →
  Z.of_nat (length keys) * Z.of_nat (length keys) ≤ INT_MAX →
  buildTable rand keys t c =
  attemptLoop rand 100 keys (Z.of_nat (length keys) * Z.of_nat (length keys)) t c.
Proof.
  intros Hk Hfit. unfold buildTable.
  destruct (decide _) as [|_]; [lia|]. destruct (decide _) as [|_]; [lia|].
  destruct (decide _) as [|_]; [lia|]. reflexivity.
Qed.

Lemma buildTable_cases (keys : list Z) (t : SecondaryTable.t) (c : nat)
    (r : bool * SecondaryTable.t * nat) :
  buildTable rand keys t c = Some r →
  (keys = [] ∧ r = (true, SecondaryTable.set_size 0 t, c)) ∨
  (∃ key0, keys = [key0] ∧ r = (true, SecondaryTable.mk [key0] 1 1 0 PRIME, c)) ∨
  ((2 ≤ length keys)%nat ∧
   Z.of_nat (length keys) * Z.of_nat (length keys) ≤ INT_MAX ∧
   attemptLoop rand 100 keys (Z.of_nat (length keys) * Z.of_nat (length keys)) t c
     = Some r).
Proof.
  destruct keys as [|key0 [|key1 rest]].
  - intros [= <-]. by left.
  - rewrite buildTable_single. intros [= <-]. right. left. by exists key0.
  - intros Hb. right. right. 
    assert (Hk : (2 ≤ length (key0 :: key1 :: rest))%nat) by (simpl; lia).
    split; [done|]. revert Hb. unfold buildTable.
    destruct (decide _) as [|_]; [lia|].
    destruct (decide _) as [|_]; [lia|].
    destruct (decide _) as [|Hfit]; [done|]. intros Hb. split; [lia|exact Hb].
Qed.

(** A successful build leaves every key of the list in its slot. *)
Lemma buildTable_true (keys : list Z) (t t' : SecondaryTable.t) (c c' : nat) :
  keys ≠ [] →
  buildTable rand keys t c = Some (true, t', c') →
  built keys t'.
Proof.
  intros Hne [[-> _]|[(key0 & -> & [= -> ->])|(Hk & Hfit & Hloop)]]%buildTable_cases;
    [done|apply built_single|].
  apply attemptLoop_true in Hloop as (j & tbl & _ & _ & Hfree & Hplace & ->).
  set (k := Z.of_nat (length keys)) in *.
  set (a := attempt_a rand c j) in *. set (b := attempt_b rand c j) in *.
  apply collisionLoop_true in Hfree as (hs & HF & HN & _).
  destruct (placeKeys_spec _ _ _ _ _ _ _ Hplace HF HN) as [Hin _].
  assert (Hslot : ∀ i key, keys !! i = Some key →
            ∃ h, hs !! i = Some h ∧
              slotOf key (SecondaryTable.mk tbl (k * k) a b PRIME) = Some h).
  { intros i key Hi. destruct (Forall2_lookup_l _ _ _ _ _ HF Hi) as (h & Hh & Hs).
    by exists h. }
  split; simpl.
  - done.
  - destruct (decide _) as [|_]; [lia|done].
  - rewrite (placeKeys_length _ _ _ _ _ _ Hplace), length_replicate. lia.
  - intros key [i Hi]%list_elem_of_lookup.
    destruct (Hslot i key Hi) as (h & Hh & Hs). exists h. split; [done|].
    by eapply Hin.
  - intros i i' ki kj Hii Hi Hj.
    destruct (Hslot i ki Hi) as (hi & Hhi & Hsi).
    destruct (Hslot i' kj Hj) as (hj & Hhj & Hsj).
    exists hi, hj. split_and!; [done..|]. intros ->.
    apply Hii. by eapply NoDup_lookup.
  - intros x Hx. destruct (placeKeys_contents _ _ _ _ _ _ Hplace x Hx) as [Hr|Hk'].
    + left. by apply elem_of_replicate_inv in Hr.
    + by right.
Qed.

(** A failed build made all 100 attempts, each of which collided, and left
    the slot array, the size and [a], [b] of the table as they were. *)
Lemma buildTable_false (keys : list Z) (t t' : SecondaryTable.t) (c c' : nat) :
  buildTable rand keys t c = Some (false, t', c') →
  (2 ≤ length keys)%nat ∧ t' = SecondaryTable.set_p PRIME t ∧ c' = (c + 300)%nat ∧
  ∀ j, (j < 100)%nat →
    isCollisionFree keys (attempt_a rand c j) (attempt_b rand c j) PRIME
      (Z.of_nat (length keys) * Z.of_nat (length keys)) = Some false.
Proof.
  intros [[_ [=]]|[(key0 & _ & [=])|(Hk & Hfit & Hloop)]]%buildTable_cases.
  apply attemptLoop_false in Hloop as (-> & -> & Hall). done.
Qed.

Lemma buildTable_calls (keys : list Z) (t t' : SecondaryTable.t) (c c' : nat) (ok : bool) :
  buildTable rand keys t c = Some (ok, t', c') → (c ≤ c' ≤ c + 300)%nat.
Proof.
  intros [[_ [= _ _ <-]]|[(key0 & _ & [= _ _ <-])|(_ & _ & Hloop)]]%buildTable_cases;
    [lia..|].
  apply attemptLoop_calls in Hloop. lia.
Qed.

End Search.

(** ** [insert] and [search] on the whole table *)

Lemma probe_found (key : Z) (t : SecondaryTable.t) (h : Z) :
  SecondaryTable.size t ≠ 0 →
  slotOf key t = Some h → at_ (SecondaryTable.table t) h = Some key →
  probe key t = Some true.
Proof.
  intros Hsz Hs Hat. unfold probe. destruct (decide _) as [|_]; [done|].
  rewrite Hs. simpl. rewrite Hat. simpl. by rewrite bool_decide_eq_true_2.
Qed.

Lemma built_probe (keys : list Z) (t : SecondaryTable.t) (key : Z) :
  keys ≠ [] → built keys t → key ∈ keys → probe key t = Some true.
Proof.
  intros Hne Hb Hin. destruct (built_slots _ _ Hb key Hin) as (h & Hs & Hat).
  eapply probe_found; [|done..]. rewrite (built_size _ _ Hb).
  destruct (decide _); [done|]. destruct keys; [done|]. simpl. lia.
Qed.

Lemma set_p_same (t : SecondaryTable.t) :
  SecondaryTable.p t = PRIME → SecondaryTable.set_p PRIME t = t.
Proof. destruct t as [tbl sz a b p]. simpl. by intros ->. Qed.

Lemma indexed_search (key : Z) (s : PerfectHashing) :
  indexed key s → search key s = Some true.
Proof.
  intros (idx & keys & t & Hidx & _ & _ & Ht & _ & Hp).
  unfold search. rewrite Hidx. simpl. rewrite Ht. simpl. exact Hp.
Qed.

Lemma indexed_listed (key : Z) (s : PerfectHashing) : indexed key s → listed key s.
Proof. intros (idx & keys & t & Hidx & Hk & Hin & _). by exists idx, keys. Qed.

Section State.

Variable rand : nat → Z.

(** What one [insert] does: it routes the key, appends it to the bucket's
    list and installs the result of the build over the new list. *)
Lemma insert_inv (key : Z) (s s' : PerfectHashing) (c c' : nat) (ok : bool) :
  insert rand key s c = Some (ok, s', c') →
  ∃ idx keys t t',
    bucketIndex key s = Some idx ∧
    at_ (buckets s) idx = Some keys ∧
    at_ (secondLevel s) idx = Some t ∧
    buildTable rand (keys ++ [key]) t c = Some (ok, t', c') ∧
    buckets s' = <[Z.to_nat idx := keys ++ [key]]> (buckets s) ∧
    secondLevel s' = <[Z.to_nat idx := t']> (secondLevel s) ∧
    primarySize s' = primarySize s ∧ a1 s' = a1 s ∧ b1 s' = b1 s ∧ p1 s' = p1 s.
Proof.
  unfold insert, buildSecondaryTable.
  destruct (bucketIndex key s) as [idx|] eqn:Hidx; simpl; [|done].
  destruct (at_ (buckets s) idx) as [keys|] eqn:Hkeys; simpl; [|done].
  rewrite (at_insert_eq _ _ _ _ Hkeys). simpl.
  destruct (at_ (secondLevel s) idx) as [t|] eqn:Ht; simpl; [|done].
  destruct (buildTable rand (keys ++ [key]) t c) as [[[ok' t'] c'']|] eqn:Hb;
    simpl; [|done].
  intros [= -> <- ->]. exists idx, keys, t, t'. by split_and!.
Qed.

(** And conversely. *)
Lemma insert_intro (key : Z) (s : PerfectHashing) (c c' : nat) (ok : bool)
    (idx : Z) (keys : list Z) (t t' : SecondaryTable.t) :
  bucketIndex key s = Some idx →
  at_ (buckets s) idx = Some keys →
  at_ (secondLevel s) idx = Some t →
  buildTable rand (keys ++ [key]) t c = Some (ok, t', c') →
  insert rand key s c =
    Some (ok,
          mkPerfectHashing (<[Z.to_nat idx := keys ++ [key]]> (buckets s))
            (<[Z.to_nat idx := t']> (secondLevel s))
            (primarySize s) (a1 s) (b1 s) (p1 s),
          c').
Proof.
  intros Hidx Hkeys Ht Hb. unfold insert, buildSecondaryTable.
  rewrite Hidx. simpl. rewrite Hkeys. simpl.
  rewrite (at_insert_eq _ _ _ _ Hkeys). simpl. rewrite Ht. simpl.
  rewrite Hb. reflexivity.
Qed.

Lemma bucketIndex_params (key : Z) (s s' : PerfectHashing) :
  primarySize s' = primarySize s → a1 s' = a1 s → b1 s' = b1 s → p1 s' = p1 s →
  bucketIndex key s' = bucketIndex key s.
Proof. unfold bucketIndex. by intros -> -> -> ->. Qed.

Lemma insert_bucketIndex (k key : Z) (s s' : PerfectHashing) (c c' : nat) (ok : bool) :
  insert rand k s c = Some (ok, s', c') → bucketIndex key s' = bucketIndex key s.
Proof.
  intros (idx & keys & t & t' & _ & _ & _ & _ & _ & _ & Hn & Ha & Hb & Hp)%insert_inv.
  by apply bucketIndex_params.
Qed.

(** The key that was passed is in its bucket's list afterwards, whatever
    [insert] returned. *)
Lemma insert_listed_new (key : Z) (s s' : PerfectHashing) (c c' : nat) (ok : bool) :
  insert rand key s c = Some (ok, s', c') → listed key s'.
Proof.
  intros Hins. pose proof (insert_bucketIndex key key _ _ _ _ _ Hins) as Hsame.
  apply insert_inv in Hins as (idx & keys & t & t' & Hidx & Hk & _ & _ & Hbs & _).
  exists idx, (keys ++ [key]). split_and!.
  - by rewrite Hsame.
  - rewrite Hbs. by eapply at_insert_eq.
  - apply elem_of_app. right. by apply list_elem_of_singleton.
Qed.

(** Lists only grow. *)
Lemma insert_listed (k key : Z) (s s' : PerfectHashing) (c c' : nat) (ok : bool) :
  listed key s → insert rand k s c = Some (ok, s', c') → listed key s'.
Proof.
  intros (i & l & Hi & Hl & Hin) Hins.
  pose proof (insert_bucketIndex k key _ _ _ _ _ Hins) as Hsame.
  apply insert_inv in Hins as (idx & keys & t & t' & Hidx & Hk & _ & _ & Hbs & _).
  destruct (decide (idx = i)) as [->|Hne].
  - assert (l = keys) as -> by congruence.
    exists i, (keys ++ [k]). split_and!.
    + by rewrite Hsame.
    + rewrite Hbs. by eapply at_insert_eq.
    + apply elem_of_app. by left.
  - exists i, l. split_and!; [by rewrite Hsame| |done].
    rewrite Hbs, at_insert_ne; [done| |done]. apply at_lt in Hk; lia.
Qed.

(** After a successful [insert], every key listed in the bucket it went to
    is indexed by the new table. *)
Lemma insert_true_indexed (k key : Z) (s s' : PerfectHashing) (c c' : nat) :
  insert rand k s c = Some (true, s', c') →
  listed key s' → bucketIndex key s' = bucketIndex k s' →
  indexed key s'.
Proof.
  intros Hins (i & l & Hi & Hl & Hin) Hsame.
  pose proof (insert_bucketIndex k k _ _ _ _ _ Hins) as Hk'.
  apply insert_inv in Hins as (idx & keys & t & t' & Hidx & Hk & Ht & Hb & Hbs & Hss & _).
  assert (i = idx) as -> by congruence.
  rewrite Hbs, (at_insert_eq _ _ _ _ Hk) in Hl. injection Hl as <-.
  assert (Hne : keys ++ [k] ≠ []) by (by destruct keys).
  pose proof (buildTable_true rand _ _ _ _ _ Hne Hb) as Hbuilt.
  exists idx, (keys ++ [k]), t'. split_and!; [done| |done| | |].
  - rewrite Hbs. by eapply at_insert_eq.
  - rewrite Hss. by eapply at_insert_eq.
  - by apply (built_p _ _ Hbuilt).
  - by eapply built_probe.
Qed.

(** An indexed key stays indexed over any later [insert]: into another
    bucket, into its own bucket with success (the table is rebuilt over a
    list that holds the key), or with failure (the table is kept). *)
Lemma insert_indexed (k key : Z) (s s' : PerfectHashing) (c c' : nat) (ok : bool) :
  indexed key s → insert rand k s c = Some (ok, s', c') → indexed key s'.
Proof.
  intros Hind Hins.
  pose proof (insert_listed k key _ _ _ _ _ (indexed_listed _ _ Hind) Hins) as Hlisted.
  pose proof (insert_bucketIndex k key _ _ _ _ _ Hins) as Hsame.
  pose proof (insert_bucketIndex k k _ _ _ _ _ Hins) as Hsamek.
  destruct Hind as (i & l & ti & Hi & Hl & Hin & Hti & Hp & Hprobe).
  pose proof Hins as (idx & keys & t & t' & Hidx & Hk & Ht & Hb & Hbs & Hss & _)%insert_inv.
  destruct (decide (idx = i)) as [->|Hne].
  - destruct ok.
    + eapply insert_true_indexed; [done..|congruence].
    + apply buildTable_false in Hb as (_ & -> & _).
      assert (t = ti) as -> by congruence. rewrite set_p_same in Hss by done.
      assert (l = keys) as -> by congruence.
      exists i, (keys ++ [k]), ti. split_and!; [| | | |done..].
      * by rewrite Hsame.
      * rewrite Hbs. by eapply at_insert_eq.
      * apply elem_of_app. by left.
      * rewrite Hss. by eapply at_insert_eq.
  - exists i, l, ti. split_and!; [by rewrite Hsame| |done| |done..].
    + rewrite Hbs, at_insert_ne; [done| |done]. apply at_lt in Hk; lia.
    + rewrite Hss, at_insert_ne; [done| |done]. apply at_lt in Hk; lia.
Qed.

Lemma insertAll_indexed (ks : list Z) (key : Z) (s s' : PerfectHashing) (c c' : nat) :
  indexed key s → insertAll rand ks s c = Some (s', c') → indexed key s'.
Proof.
  revert s c. induction ks as [|k ks IH]; intros s c Hind; simpl.
  - by intros [= <- <-].
  - destruct (insert rand k s c) as [[[ok s1] c1]|] eqn:Hins; simpl; [|done].
    apply IH. by eapply insert_indexed.
Qed.

Lemma insertAll_listed (ks : list Z) (key : Z) (s s' : PerfectHashing) (c c' : nat) :
  listed key s → insertAll rand ks s c = Some (s', c') → listed key s'.
Proof.
  revert s c. induction ks as [|k ks IH]; intros s c Hl; simpl.
  - by intros [= <- <-].
  - destruct (insert rand k s c) as [[[ok s1] c1]|] eqn:Hins; simpl; [|done].
    apply IH. by eapply insert_listed.
Qed.

Lemma insertAll_bucketIndex (ks : list Z) (key : Z) (s s' : PerfectHashing) (c c' : nat) :
  insertAll rand ks s c = Some (s', c') → bucketIndex key s' = bucketIndex key s.
Proof.
  revert s c. induction ks as [|k ks IH]; intros s c; simpl.
  - by intros [= <- <-].
  - destruct (insert rand k s c) as [[[ok s1] c1]|] eqn:Hins; simpl; [|done].
    intros ->%IH. by eapply insert_bucketIndex.
Qed.

End State.

(** ** Invariants of the reachable tables *)

Lemma at_replicate {A} (n : Z) (x y : A) (i : Z) :
  at_ (replicate (Z.to_nat n) x) i = Some y → y = x ∧ 0 ≤ i < n.
Proof.
  intros [Hi [-> Hlt]%lookup_replicate]%at_Some. split; [done|lia].
Qed.

Lemma table_wf_app (keys : list Z) (key : Z) (t : SecondaryTable.t) :
  keys ≠ [] → table_wf keys t → table_wf (keys ++ [key]) t.
Proof.
  destruct keys as [|k0 keys]; [done|]. intros _ (Hp & Hsz & Hlen & Hc).
  simpl. split_and!; [done..|]. intros x [->|Hx]%Hc; [by left|right].
  change (x ∈ (k0 :: keys) ++ [key]). apply elem_of_app. by left.
Qed.

Lemma built_table_wf (keys : list Z) (t : SecondaryTable.t) :
  keys ≠ [] → built keys t → table_wf keys t.
Proof.
  intros Hne Hb.
  assert (0 < SecondaryTable.size t) as Hsz.
  { rewrite (built_size _ _ Hb). destruct (decide _); [done|].
    destruct keys; [done|]. simpl. lia. }
  destruct keys as [|k0 rest]; [done|]. split_and!.
  - exact (built_p _ _ Hb).
  - exact Hsz.
  - exact (built_length _ _ Hb).
  - exact (built_contents _ _ Hb).
Qed.

Section Invariants.

Variable rand : nat → Z.

Lemma construct_inv (n : Z) (c c1 : nat) (s0 : PerfectHashing) :
  construct rand n c = Some (s0, c1) →
  0 ≤ n ∧ c1 = (c + 3)%nat ∧
  s0 = mkPerfectHashing (replicate (Z.to_nat n) [])
         (replicate (Z.to_nat n) SecondaryTable.init) n
         (attempt_a rand c 0) (attempt_b rand c 0) PRIME.
Proof.
  unfold construct. destruct (decide (n < 0)) as [|Hn]; [done|].
  pose proof (randomize_attempt rand c 0) as Hr.
  replace (c + 3 * 0)%nat with c in Hr by lia. rewrite Hr.
  intros [= <- <-]. split_and!; [lia|lia|done].
Qed.

Lemma construct_wf (n : Z) (c c1 : nat) (s0 : PerfectHashing) :
  construct rand n c = Some (s0, c1) → wf s0 ∧ keys_from [] s0.
Proof.
  intros (Hn & _ & ->)%construct_inv. split; [split_and!; simpl|].
  - done.
  - rewrite length_replicate. lia.
  - rewrite length_replicate. lia.
  - done.
  - intros idx keys t [-> _]%at_replicate [-> _]%at_replicate. done.
  - intros idx keys x [-> _]%at_replicate Hx. by apply elem_of_nil in Hx.
Qed.

Lemma insert_wf (key : Z) (s s' : PerfectHashing) (c c' : nat) (ok : bool) :
  wf s → insert rand key s c = Some (ok, s', c') → wf s'.
Proof.
  intros (Hn & Hlb & Hls & Hp1 & Htab).
  intros (idx & keys & t & t' & Hidx & Hk & Ht & Hb & Hbs & Hss & Hn' & _ & _ & Hp1')%insert_inv.
  pose proof (at_lt _ _ _ Hk) as Hrange.
  split_and!.
  - by rewrite Hn'.
  - by rewrite Hbs, length_insert, Hn'.
  - by rewrite Hss, length_insert, Hn'.
  - by rewrite Hp1'.
  - intros j l tj. rewrite Hbs, Hss.
    destruct (decide (idx = j)) as [<-|Hne].
    + rewrite (at_insert_eq _ _ _ _ Hk), (at_insert_eq _ _ _ _ Ht).
      intros [= <-] [= <-].
      assert (Hne : keys ++ [key] ≠ []) by (by destruct keys).
      destruct ok.
      * apply built_table_wf; [done|]. by eapply buildTable_true.
      * apply buildTable_false in Hb as (Hlen & -> & _).
        assert (Hk0 : keys ≠ []).
        { intros ->. simpl in Hlen. lia. }
        pose proof (Htab _ _ _ Hk Ht) as Hwf.
        apply table_wf_app; [done|].
        destruct keys as [|k0 keys]; [done|].
        destruct Hwf as (Hp & ?). rewrite set_p_same by done. by split.
    + rewrite !at_insert_ne by lia. apply Htab.
Qed.

Lemma insert_keys_from (ks : list Z) (key : Z) (s s' : PerfectHashing)
    (c c' : nat) (ok : bool) :
  keys_from ks s → insert rand key s c = Some (ok, s', c') →
  keys_from (ks ++ [key]) s'.
Proof.
  intros Hfrom (idx & keys & t & t' & _ & Hk & _ & _ & Hbs & _)%insert_inv.
  pose proof (at_lt _ _ _ Hk) as Hrange.
  intros j l x. rewrite Hbs. destruct (decide (idx = j)) as [<-|Hne].
  - rewrite (at_insert_eq _ _ _ _ Hk). intros [= <-] [Hx|Hx]%elem_of_app.
    + apply elem_of_app. left. by eapply Hfrom.
    + apply elem_of_app. by right.
  - rewrite at_insert_ne by lia. intros Hl Hx.
    apply elem_of_app. left. by eapply Hfrom.
Qed.

Lemma insertAll_wf (ks : list Z) (s s' : PerfectHashing) (c c' : nat) :
  wf s → insertAll rand ks s c = Some (s', c') → wf s'.
Proof.
  revert s c. induction ks as [|k ks IH]; intros s c Hwf; simpl.
  - by intros [= <- <-].
  - destruct (insert rand k s c) as [[[ok s1] c1]|] eqn:Hins; simpl; [|done].
    apply IH. by eapply insert_wf.
Qed.

Lemma insertAll_keys_from (pre ks : list Z) (s s' : PerfectHashing) (c c' : nat) :
  keys_from pre s → insertAll rand ks s c = Some (s', c') →
  keys_from (pre ++ ks) s'.
Proof.
  revert pre s c. induction ks as [|k ks IH]; intros pre s c Hfrom; simpl.
  - intros [= <- <-]. by rewrite app_nil_r.
  - destruct (insert rand k s c) as [[[ok s1] c1]|] eqn:Hins; simpl; [|done].
    intros Hall. rewrite cons_middle, app_assoc.
    eapply IH; [|done]. by eapply insert_keys_from.
Qed.

(** The tables reachable from the constructor by inserting [ks]. *)
Lemma reachable_wf (n : Z) (c0 c1 c : nat) (ks : list Z) (s0 s : PerfectHashing) :
  construct rand n c0 = Some (s0, c1) →
  insertAll rand ks s0 c1 = Some (s, c) →
  wf s ∧ keys_from ks s ∧ primarySize s = n.
Proof.
  intros Hc Hall. destruct (construct_wf _ _ _ _ Hc) as [Hwf Hfrom].
  split_and!.
  - by eapply insertAll_wf.
  - by apply (insertAll_keys_from [] ks _ _ _ _ Hfrom Hall).
  - apply construct_inv in Hc as (_ & _ & ->).
    clear Hwf Hfrom. revert Hall. generalize (attempt_a rand c0 0) (attempt_b rand c0 0).
    generalize (replicate (Z.to_nat n) (@nil Z)) (replicate (Z.to_nat n) SecondaryTable.init).
    intros bs ss a b.
    change n with (primarySize (mkPerfectHashing bs ss n a b PRIME)) at 2.
    generalize (mkPerfectHashing bs ss n a b PRIME). clear. intros s0. revert s0 c1.
    induction ks as [|k ks IH]; intros s0 c1; simpl.
    + by intros [= <- <-].
    + destruct (insert rand k s0 c1) as [[[ok s1] c2]|] eqn:Hins; simpl; [|done].
      intros ->%IH.
      by apply insert_inv in Hins as (? & ? & ? & ? & _ & _ & _ & _ & _ & _ & -> & _).
Qed.

End Invariants.

(** ** Defined behaviour on non-negative keys *)

Section Bounds.

Variable rand : nat → Z.
Hypothesis rand_range : ∀ i, 0 ≤ rand i ≤ RAND_MAX.

Lemma attempt_a_range (c j : nat) : 1 ≤ attempt_a rand c j ≤ PRIME - 1.
Proof.
  unfold attempt_a. pose proof (rand_range (c + 3 * j + 1)%nat) as Hr.
  pose proof (Z.rem_bound_pos (rand (c + 3 * j + 1)) (PRIME - 1)) as Hb.
  unfold RAND_MAX, INT_MAX, PRIME in *.
  rewrite to_int_id; unfold INT_MIN, INT_MAX; lia.
Qed.

Lemma attempt_b_range (c j : nat) : 0 ≤ attempt_b rand c j ≤ PRIME - 1.
Proof.
  unfold attempt_b. pose proof (rand_range (c + 3 * j + 2)%nat) as Hr.
  pose proof (Z.rem_bound_pos (rand (c + 3 * j + 2)) PRIME) as Hb.
  unfold RAND_MAX, INT_MAX, PRIME in *.
  rewrite to_int_id; unfold INT_MIN, INT_MAX; lia.
Qed.

Lemma construct_nonneg (n : Z) (c c1 : nat) (s0 : PerfectHashing) :
  construct rand n c = Some (s0, c1) → nonneg_params s0.
Proof.
  intros (Hn & _ & ->)%construct_inv. split_and!; simpl.
  - pose proof (attempt_a_range c 0). lia.
  - pose proof (attempt_b_range c 0). lia.
  - by intros idx t [-> _]%at_replicate.
Qed.

Lemma buildTable_nonneg (keys : list Z) (t t' : SecondaryTable.t) (c c' : nat) (ok : bool) :
  0 ≤ SecondaryTable.a t → 0 ≤ SecondaryTable.b t →
  buildTable rand keys t c = Some (ok, t', c') →
  0 ≤ SecondaryTable.a t' ∧ 0 ≤ SecondaryTable.b t'.
Proof.
  intros Ha Hb [[_ [= _ -> _]]|[(key0 & _ & [= _ -> _])|(_ & _ & Hloop)]]%buildTable_cases;
    [done|done|].
  destruct ok.
  - apply attemptLoop_true in Hloop as (j & tbl & _ & _ & _ & _ & ->). simpl.
    pose proof (attempt_a_range c j). pose proof (attempt_b_range c j). lia.
  - by apply attemptLoop_false in Hloop as (_ & -> & _).
Qed.

Lemma insert_nonneg (key : Z) (s s' : PerfectHashing) (c c' : nat) (ok : bool) :
  nonneg_params s → insert rand key s c = Some (ok, s', c') → nonneg_params s'.
Proof.
  intros (Ha1 & Hb1 & Hsec).
  intros (idx & keys & t & t' & _ & Hk & Ht & Hb & _ & Hss & _ & Ha & Hb' & _)%insert_inv.
  pose proof (at_lt _ _ _ Hk) as Hrange.
  split_and!; [by rewrite Ha|by rewrite Hb'|].
  intros j tj. rewrite Hss. destruct (decide (idx = j)) as [<-|Hne].
  - rewrite (at_insert_eq _ _ _ _ Ht). intros [= <-].
    destruct (Hsec _ _ Ht). by eapply buildTable_nonneg.
  - rewrite at_insert_ne by lia. apply Hsec.
Qed.

Lemma insertAll_nonneg (ks : list Z) (s s' : PerfectHashing) (c c' : nat) :
  nonneg_params s → insertAll rand ks s c = Some (s', c') → nonneg_params s'.
Proof.
  revert s c. induction ks as [|k ks IH]; intros s c Hnn; simpl.
  - by intros [= <- <-].
  - destruct (insert rand k s c) as [[[ok s1] c1]|] eqn:Hins; simpl; [|done].
    apply IH. by eapply insert_nonneg.
Qed.

(** The primary bucket of a non-negative key is inside both vectors. *)
Lemma bucketIndex_in_bounds (key : Z) (s : PerfectHashing) :
  wf s → nonneg_params s → 0 < primarySize s → 0 ≤ key →
  ∃ idx keys t, bucketIndex key s = Some idx ∧ 0 ≤ idx < primarySize s ∧
    at_ (buckets s) idx = Some keys ∧ at_ (secondLevel s) idx = Some t.
Proof.
  intros (_ & Hlb & Hls & Hp1 & _) (Ha1 & Hb1 & _) Hn Hkey.
  pose proof (slot_nonneg_bounds key (a1 s) (b1 s) (primarySize s) Hkey Ha1 Hb1 Hn) as Hidx.
  destruct (at_is_Some (buckets s) (Z.rem (Z.rem (a1 s * key + b1 s) PRIME) (primarySize s)))
    as [keys Hk]; [lia|].
  destruct (at_is_Some (secondLevel s) (Z.rem (Z.rem (a1 s * key + b1 s) PRIME) (primarySize s)))
    as [t Ht]; [lia|].
  eexists _, keys, t. split_and!; [|exact (proj1 Hidx)|exact (proj2 Hidx)|done..].
  unfold bucketIndex. rewrite Hp1. by apply slot_PRIME.
Qed.

(** The secondary slot of a non-negative key is inside the slot array. *)
Lemma slotOf_in_bounds (key : Z) (keys : list Z) (t : SecondaryTable.t) :
  table_wf keys t → 0 ≤ SecondaryTable.a t → 0 ≤ SecondaryTable.b t →
  SecondaryTable.size t ≠ 0 → 0 ≤ key →
  ∃ h x, slotOf key t = Some h ∧ 0 ≤ h < SecondaryTable.size t ∧
    Z.of_nat (length (SecondaryTable.table t)) = SecondaryTable.size t ∧
    at_ (SecondaryTable.table t) h = Some x.
Proof.
  intros Hwf Ha Hb Hsz Hkey. destruct keys as [|k0 keys]; [done|].
  destruct Hwf as (Hp & Hpos & Hlen & _).
  pose proof (slot_nonneg_bounds key _ _ _ Hkey Ha Hb Hpos) as Hh.
  destruct (at_is_Some (SecondaryTable.table t)
              (Z.rem (Z.rem (SecondaryTable.a t * key + SecondaryTable.b t) PRIME)
                 (SecondaryTable.size t))) as [x Hx]; [lia|].
  eexists _, x. split_and!; [|exact (proj1 Hh)|exact (proj2 Hh)|done..].
  unfold slotOf. rewrite Hp. by apply slot_PRIME.
Qed.

Lemma search_is_Some (key : Z) (s : PerfectHashing) :
  wf s → nonneg_params s → 0 < primarySize s → 0 ≤ key → is_Some (search key s).
Proof.
  intros Hwf Hnn Hn Hkey.
  destruct (bucketIndex_in_bounds key s Hwf Hnn Hn Hkey) as (idx & keys & t & Hidx & _ & Hk & Ht).
  unfold search. rewrite Hidx. simpl. rewrite Ht. simpl.
  unfold probe. destruct (decide _) as [|Hsz]; [done|].
  destruct Hwf as (_ & _ & _ & _ & Htab). destruct Hnn as (_ & _ & Hsec).
  destruct (Hsec _ _ Ht) as [Ha Hb].
  destruct (slotOf_in_bounds key keys t (Htab _ _ _ Hk Ht) Ha Hb Hsz Hkey)
    as (h & x & -> & _ & _ & Hx).
  simpl. rewrite Hx. done.
Qed.

(** The randomized search over non-negative keys stays inside the new slot
    array, so it returns. *)
Lemma attemptLoop_is_Some (n : nat) (keys : list Z) (ss : Z) (t : SecondaryTable.t) (c : nat) :
  0 < ss → (∀ k, k ∈ keys → 0 ≤ k) →
  is_Some (attemptLoop rand n keys ss t c).
Proof.
  intros Hss Hkeys. revert t c. induction n as [|n IH]; intros t c; [done|].
  rewrite attemptLoop_S.
  destruct (isCollisionFree_is_Some keys (attempt_a rand c 0) (attempt_b rand c 0) ss Hss)
    as [[|] ->]; simpl; [|apply IH].
  pose proof (attempt_a_range c 0) as Ha. pose proof (attempt_b_range c 0) as Hb.
  destruct (placeKeys_is_Some keys (attempt_a rand c 0) (attempt_b rand c 0) ss
              (replicate (Z.to_nat ss) EMPTY)) as [tbl ->]; [|done].
  apply Forall_forall. intros k Hk. eexists. split; [by apply slot_PRIME|].
  rewrite length_replicate.
  pose proof (slot_nonneg_bounds k (attempt_a rand c 0) (attempt_b rand c 0) ss).
  specialize (Hkeys k Hk). lia.
Qed.

Lemma buildTable_is_Some (keys : list Z) (t : SecondaryTable.t) (c : nat) :
  (∀ k, k ∈ keys → 0 ≤ k) →
  Z.of_nat (length keys) * Z.of_nat (length keys) ≤ INT_MAX →
  is_Some (buildTable rand keys t c).
Proof.
  intros Hkeys Hfit. destruct keys as [|k0 [|k1 rest]].
  - done.
  - by rewrite buildTable_single.
  - rewrite buildTable_search; [|simpl; lia|done].
    apply attemptLoop_is_Some; [simpl; lia|done].
Qed.

Lemma insert_is_Some (key : Z) (s : PerfectHashing) (c : nat) (ks : list Z) :
  wf s → nonneg_params s → keys_from ks s → 0 < primarySize s →
  (∀ k, k ∈ ks → 0 ≤ k) → 0 ≤ key →
  (∀ idx keys, at_ (buckets s) idx = Some keys →
     (Z.of_nat (length keys) + 1) * (Z.of_nat (length keys) + 1) ≤ INT_MAX) →
  is_Some (insert rand key s c).
Proof.
  intros Hwf Hnn Hfrom Hn Hks Hkey Hfit.
  destruct (bucketIndex_in_bounds key s Hwf Hnn Hn Hkey) as (idx & keys & t & Hidx & _ & Hk & Ht).
  destruct (buildTable_is_Some (keys ++ [key]) t c) as [[[ok t'] c'] Hb].
  - intros k [Hin|Hin]%elem_of_app.
    + apply Hks. by eapply Hfrom.
    + by apply list_elem_of_singleton in Hin as ->.
  - rewrite length_app. simpl. specialize (Hfit _ _ Hk). lia.
  - erewrite insert_intro; done.
Qed.

End Bounds.

(** ** The concrete generators are in range *)

Lemma rand_scaled_range (i : nat) : 0 ≤ rand_scaled i ≤ RAND_MAX.
Proof.
  unfold rand_scaled, RAND_MAX, INT_MAX.
  pose proof (Z.mod_pos_bound (Z.of_nat i * 7919) 2147483648). lia.
Qed.

Lemma rand_index_range (i : nat) : 0 ≤ rand_index i ≤ RAND_MAX.
Proof.
  unfold rand_index, RAND_MAX, INT_MAX.
  pose proof (Z.mod_pos_bound (Z.of_nat i) 2147483648). lia.
Qed.

Lemma rand_three_range (i : nat) : 0 ≤ rand_three i ≤ RAND_MAX.
Proof. unfold rand_three, RAND_MAX, INT_MAX. lia. Qed.

Lemma rand_zero_range (i : nat) : 0 ≤ rand_zero i ≤ RAND_MAX.
Proof. unfold rand_zero, RAND_MAX, INT_MAX. lia. Qed.

(** For the examples: the first part of a conjunction may be used to prove
    the second. *)
Lemma conj_keep (A B : Prop) : A → (A → B) → A ∧ B.
Proof. intros HA HB. split; [exact HA|exact (HB HA)]. Qed.

Ltac run := vm_compute; reflexivity.
Ltac step H := apply conj_keep; [run|intros H].

(** * The properties of the specification *)

(** C2 (no false negatives).  A key whose [insert] returned true is found by
    [search] after any further sequence of [insert] calls, whatever those
    calls returned. *)
Theorem no_false_negatives (rand : nat → Z) (key : Z) (later : list Z)
    (s s1 s2 : PerfectHashing) (c c1 c2 : nat) :
  insert rand key s c = Some (true, s1, c1) →
  insertAll rand later s1 c1 = Some (s2, c2) →
  search key s2 = Some true.
Proof.
  intros Hins Hlater. apply indexed_search.
  eapply insertAll_indexed; [|exact Hlater].
  eapply insert_true_indexed; [exact Hins| |done].
  by eapply insert_listed_new.
Qed.

(** The key 10 is inserted with success into a fresh table of 5 buckets;
    the insert of 20 into the same bucket then fails, that of 30 succeeds,
    and 10 is still found. *)
Lemma no_false_negatives_witness :
  ∃ s0 c0 s1 c1 s2 c2,
    construct rand_three 5 0 = Some (s0, c0) ∧
    insert rand_three 10 s0 c0 = Some (true, s1, c1) ∧
    insertAll rand_three [20; 30] s1 c1 = Some (s2, c2) ∧
    search 10 s2 = Some true.
Proof.
  do 6 eexists. step H0. step H1. step H2.
  exact (no_false_negatives _ _ _ _ _ _ _ _ _ H1 H2).
Defined.

(** C10.  When [insert key] returns false the key has all the same been
    appended to the list of its bucket; and after any later [insert] into
    that bucket that returns true, [search key] returns true, although no
    [insert] of the key returned true. *)
Theorem failed_insert_indexed_later (rand : nat → Z) (key : Z)
    (s s1 : PerfectHashing) (c c1 : nat) :
  insert rand key s c = Some (false, s1, c1) →
  (∃ idx keys,
     bucketIndex key s = Some idx ∧ at_ (buckets s) idx = Some keys ∧
     at_ (buckets s1) idx = Some (keys ++ [key])) ∧
  ∀ (mid : list Z) (k' : Z) (s2 s3 : PerfectHashing) (c2 c3 : nat),
    insertAll rand mid s1 c1 = Some (s2, c2) →
    bucketIndex k' s2 = bucketIndex key s2 →
    insert rand k' s2 c2 = Some (true, s3, c3) →
    search key s3 = Some true.
Proof.
  intros Hins. split.
  - pose proof Hins as (idx & keys & t & t' & Hidx & Hk & _ & _ & Hbs & _)%insert_inv.
    exists idx, keys. split_and!; [done..|].
    rewrite Hbs. by eapply at_insert_eq.
  - intros mid k' s2 s3 c2 c3 Hmid Hsame Hins'.
    apply indexed_search.
    eapply insert_true_indexed; [exact Hins'| |].
    + eapply insert_listed; [|exact Hins'].
      eapply insertAll_listed; [|exact Hmid].
      by eapply insert_listed_new.
    + rewrite !(insert_bucketIndex _ _ _ _ _ _ _ _ Hins'). by symmetry.
Qed.

(** With a generator that keeps returning 3, the insert of 20 next to 10
    fails all its attempts; the later insert of 30 into the same bucket
    succeeds, and 20 is found from then on. *)
Lemma failed_insert_indexed_later_witness :
  ∃ s0 c0 s1 c1 s2 c2 s3 c3,
    construct rand_three 5 0 = Some (s0, c0) ∧
    insert rand_three 10 s0 c0 = Some (true, s1, c1) ∧
    insert rand_three 20 s1 c1 = Some (false, s2, c2) ∧
    search 20 s2 = Some false ∧
    insert rand_three 30 s2 c2 = Some (true, s3, c3) ∧
    search 20 s3 = Some true.
Proof.
  do 8 eexists. step H0. step H1. step H2. step H3. step H4.
  refine (proj2 (failed_insert_indexed_later _ _ _ _ _ _ H2) [] 30 _ _ _ _ _ _ H4);
    run.
Defined.

(** C7.  The first key that reaches a bucket: [insert] returns true without
    any call of the generator, the bucket's table is the one-slot table
    holding the key with [a = 1], [b = 0] and the shared prime, and
    [search] finds the key. *)
Theorem single_key_bucket (rand : nat → Z) (key idx : Z) (s : PerfectHashing)
    (c : nat) (t0 : SecondaryTable.t) :
  bucketIndex key s = Some idx →
  at_ (buckets s) idx = Some [] →
  at_ (secondLevel s) idx = Some t0 →
  ∃ s',
    insert rand key s c = Some (true, s', c) ∧
    at_ (buckets s') idx = Some [key] ∧
    at_ (secondLevel s') idx = Some (SecondaryTable.mk [key] 1 1 0 PRIME) ∧
    search key s' = Some true.
Proof.
  intros Hidx Hk Ht.
  pose proof (insert_intro rand key s c c true idx [] t0 _ Hidx Hk Ht
                (buildTable_single rand key t0 c)) as Hins.
  eexists. split; [exact Hins|]. simpl app in *.
  pose proof (insert_listed_new _ _ _ _ _ _ _ Hins) as Hl.
  pose proof (insert_true_indexed _ key key _ _ _ _ Hins Hl eq_refl) as Hind.
  split_and!.
  - simpl. by eapply at_insert_eq.
  - simpl. by eapply at_insert_eq.
  - by apply indexed_search.
Qed.

(** The scenario of the specification: a table of 5 buckets and the single
    key 7. *)
Lemma single_key_bucket_witness :
  ∃ s0 c0,
    construct rand_scaled 5 0 = Some (s0, c0) ∧
    bucketIndex 7 s0 = Some 3 ∧
    at_ (buckets s0) 3 = Some [] ∧
    at_ (secondLevel s0) 3 = Some SecondaryTable.init ∧
    ∃ s',
      insert rand_scaled 7 s0 c0 = Some (true, s', c0) ∧
      at_ (buckets s') 3 = Some [7] ∧
      at_ (secondLevel s') 3 = Some (SecondaryTable.mk [7] 1 1 0 PRIME) ∧
      search 7 s' = Some true.
Proof.
  do 2 eexists. step H0. step H1. step H2. step H3.
  exact (single_key_bucket rand_scaled _ _ _ 3 _ H1 H2 H3).
Defined.

(** ** Frame and routing *)

Lemma insertAll_params (rand : nat → Z) (ks : list Z) (s s' : PerfectHashing) (c c' : nat) :
  insertAll rand ks s c = Some (s', c') →
  primarySize s' = primarySize s ∧ a1 s' = a1 s ∧ b1 s' = b1 s ∧ p1 s' = p1 s.
Proof.
  revert s c. induction ks as [|k ks IH]; intros s c; simpl.
  - by intros [= <- <-].
  - destruct (insert rand k s c) as [[[ok s1] c1]|] eqn:Hins; simpl; [|done].
    intros (-> & -> & -> & ->)%IH.
    by apply insert_inv in Hins as (? & ? & ? & ? & _ & _ & _ & _ & _ & _ & ? & ? & ? & ?).
Qed.

(** C8.  [insert key] changes the key list and the secondary table of the
    one bucket the key is routed to; every other bucket's list and table,
    the bucket count and the level-1 parameters are as before, and they stay
    so over any further inserts, so the bucket of every key is fixed for the
    lifetime of the table. *)
Theorem insert_frame (rand : nat → Z) (key : Z) (s s' : PerfectHashing)
    (c c' : nat) (ok : bool) :
  insert rand key s c = Some (ok, s', c') →
  (∃ idx, bucketIndex key s = Some idx ∧
     ∀ j, j ≠ idx →
       at_ (buckets s') j = at_ (buckets s) j ∧
       at_ (secondLevel s') j = at_ (secondLevel s) j) ∧
  length (buckets s') = length (buckets s) ∧
  length (secondLevel s') = length (secondLevel s) ∧
  primarySize s' = primarySize s ∧ a1 s' = a1 s ∧ b1 s' = b1 s ∧ p1 s' = p1 s ∧
  ∀ (ks : list Z) (s'' : PerfectHashing) (c'' : nat),
    insertAll rand ks s' c' = Some (s'', c'') →
    primarySize s'' = primarySize s ∧ a1 s'' = a1 s ∧ b1 s'' = b1 s ∧
    p1 s'' = p1 s ∧ ∀ k, bucketIndex k s'' = bucketIndex k s.
Proof.
  intros Hins.
  pose proof Hins as (idx & keys & t & t' & Hidx & Hk & Ht & _ & Hbs & Hss & Hn & Ha & Hb & Hp)%insert_inv.
  pose proof (at_lt _ _ _ Hk) as Hrange.
  split_and!; [|by rewrite Hbs, length_insert|by rewrite Hss, length_insert|done..|].
  - exists idx. split; [done|]. intros j Hj.
    rewrite Hbs, Hss, !at_insert_ne by lia. done.
  - intros ks s'' c'' Hall.
    pose proof (insertAll_params _ _ _ _ _ _ Hall) as (Hn' & Ha' & Hb' & Hp').
    split_and!; [congruence..|].
    intros k. rewrite (insertAll_bucketIndex _ _ _ _ _ _ _ Hall).
    by eapply insert_bucketIndex.
Qed.

(** Inserting 30 into a table that holds 10, 25 and 7: the key goes to
    bucket 2, and bucket 1 (which holds 7) is untouched. *)
Lemma insert_frame_witness :
  ∃ s0 c0 s c s' c' ok,
    construct rand_index 5 0 = Some (s0, c0) ∧
    insertAll rand_index [10; 25; 7] s0 c0 = Some (s, c) ∧
    insert rand_index 30 s c = Some (ok, s', c') ∧
    bucketIndex 30 s = Some 2 ∧
    at_ (buckets s') 1 = at_ (buckets s) 1 ∧
    at_ (secondLevel s') 1 = at_ (secondLevel s) 1 ∧
    a1 s' = a1 s.
Proof.
  do 7 eexists. step H0. step H1. step H2. step H3.
  destruct (insert_frame _ _ _ _ _ _ _ H2) as ((idx & Hidx & Hframe) & _ & _ & _ & Ha & _).
  rewrite H3 in Hidx. injection Hidx as <-.
  split_and!; [apply Hframe; lia|apply Hframe; lia|exact Ha].
Defined.

(** ** The build of one bucket *)

Lemma buildSecondaryTable_inv (rand : nat → Z) (idx : Z) (s s' : PerfectHashing)
    (c c' : nat) (ok : bool) :
  buildSecondaryTable rand idx s c = Some (ok, s', c') →
  ∃ keys t t',
    at_ (buckets s) idx = Some keys ∧ at_ (secondLevel s) idx = Some t ∧
    buildTable rand keys t c = Some (ok, t', c') ∧
    s' = set_secondLevel (<[Z.to_nat idx := t']> (secondLevel s)) s.
Proof.
  unfold buildSecondaryTable.
  destruct (at_ (buckets s) idx) as [keys|]; simpl; [|done].
  destruct (at_ (secondLevel s) idx) as [t|]; simpl; [|done].
  destruct (buildTable rand keys t c) as [[[ok' t'] c'']|] eqn:Hb; simpl; [|done].
  intros [= -> <- ->]. by exists keys, t, t'.
Qed.

Lemma buildSecondaryTable_intro (rand : nat → Z) (idx : Z) (s : PerfectHashing)
    (c c' : nat) (ok : bool) (keys : list Z) (t t' : SecondaryTable.t) :
  at_ (buckets s) idx = Some keys → at_ (secondLevel s) idx = Some t →
  buildTable rand keys t c = Some (ok, t', c') →
  buildSecondaryTable rand idx s c =
    Some (ok, set_secondLevel (<[Z.to_nat idx := t']> (secondLevel s)) s, c').
Proof.
  intros Hk Ht Hb. unfold buildSecondaryTable.
  rewrite Hk. simpl. rewrite Ht. simpl. by rewrite Hb.
Qed.

(** C3 (collision-free invariant).  After a successful build of the table
    of a bucket holding [k >= 2] keys, the table has size [k * k], its slot
    array has that many slots, and under the parameters [a], [b], [p] stored
    in the table any two distinct keys of the bucket have different slots
    [((a * key + b) % p) % (k * k)]. *)
Theorem collision_free_invariant (rand : nat → Z) (idx : Z) (s s' : PerfectHashing)
    (c c' : nat) (keys : list Z) :
  at_ (buckets s) idx = Some keys →
  (2 ≤ length keys)%nat →
  buildSecondaryTable rand idx s c = Some (true, s', c') →
  ∃ t,
    at_ (secondLevel s') idx = Some t ∧
    SecondaryTable.size t = Z.of_nat (length keys) * Z.of_nat (length keys) ∧
    Z.of_nat (length (SecondaryTable.table t)) =
      Z.of_nat (length keys) * Z.of_nat (length keys) ∧
    ∀ x y, x ∈ keys → y ∈ keys → x ≠ y →
      ∃ hx hy,
        slot x (SecondaryTable.a t) (SecondaryTable.b t) (SecondaryTable.p t)
          (Z.of_nat (length keys) * Z.of_nat (length keys)) = Some hx ∧
        slot y (SecondaryTable.a t) (SecondaryTable.b t) (SecondaryTable.p t)
          (Z.of_nat (length keys) * Z.of_nat (length keys)) = Some hy ∧
        hx ≠ hy.
Proof.
  intros Hk Hlen (keys' & t & t' & Hk' & Ht & Hb & ->)%buildSecondaryTable_inv.
  assert (keys' = keys) as -> by congruence.
  assert (Hne : keys ≠ []) by (intros ->; simpl in Hlen; lia).
  pose proof (buildTable_true rand _ _ _ _ _ Hne Hb) as Hbuilt.
  assert (Hsize : SecondaryTable.size t' = Z.of_nat (length keys) * Z.of_nat (length keys)).
  { rewrite (built_size _ _ Hbuilt). destruct (decide _); [lia|done]. }
  exists t'. split_and!.
  - simpl. by eapply at_insert_eq.
  - done.
  - by rewrite (built_length _ _ Hbuilt).
  - intros x y [i Hi]%list_elem_of_lookup [j Hj]%list_elem_of_lookup Hxy.
    rewrite <- Hsize. apply (built_distinct _ _ Hbuilt i j); [|done..].
    intros ->. congruence.
Qed.

(** The keys 4 and 9 share bucket 0 of a table of 5 buckets; the build that
    follows the second insert is over two keys. *)
Lemma collision_free_invariant_witness :
  ∃ s0 c0 s1 c1 s2 s3 c3,
    construct rand_index 5 0 = Some (s0, c0) ∧
    insert rand_index 4 s0 c0 = Some (true, s1, c1) ∧
    s2 = set_buckets (<[0%nat := [4; 9]]> (buckets s1)) s1 ∧
    at_ (buckets s2) 0 = Some [4; 9] ∧
    buildSecondaryTable rand_index 0 s2 c1 = Some (true, s3, c3) ∧
    ∃ t,
      at_ (secondLevel s3) 0 = Some t ∧
      SecondaryTable.size t = 4 ∧
      Z.of_nat (length (SecondaryTable.table t)) = 4 ∧
      ∀ x y, x ∈ [4; 9] → y ∈ [4; 9] → x ≠ y →
        ∃ hx hy,
          slot x (SecondaryTable.a t) (SecondaryTable.b t) (SecondaryTable.p t) 4 = Some hx ∧
          slot y (SecondaryTable.a t) (SecondaryTable.b t) (SecondaryTable.p t) 4 = Some hy ∧
          hx ≠ hy.
Proof.
  do 7 eexists. step H0. step H1. step H2. step H3. step H4.
  exact (collision_free_invariant rand_index 0 _ _ _ _ [4; 9] H3 ltac:(simpl; lia) H4).
Defined.

(** C5.  Inserting a key that is already in the list of its bucket appends
    a second entry; each of the 100 attempts of the rebuild then fails the
    collision check, and [insert] returns false. *)
Theorem duplicate_insert_rejected (rand : nat → Z) (key idx : Z) (s : PerfectHashing)
    (c : nat) (keys : list Z) (t : SecondaryTable.t) :
  bucketIndex key s = Some idx →
  at_ (buckets s) idx = Some keys →
  at_ (secondLevel s) idx = Some t →
  key ∈ keys →
  (Z.of_nat (length keys) + 1) * (Z.of_nat (length keys) + 1) ≤ INT_MAX →
  ∃ s',
    insert rand key s c = Some (false, s', (c + 300)%nat) ∧
    at_ (buckets s') idx = Some (keys ++ [key]) ∧
    ∀ j, (j < 100)%nat →
      isCollisionFree (keys ++ [key]) (attempt_a rand c j) (attempt_b rand c j) PRIME
        ((Z.of_nat (length keys) + 1) * (Z.of_nat (length keys) + 1)) = Some false.
Proof.
  intros Hidx Hk Ht Hin Hfit.
  assert (Hlen : Z.of_nat (length (keys ++ [key])) = Z.of_nat (length keys) + 1).
  { rewrite length_app. simpl. lia. }
  assert (Hk2 : (2 ≤ length (keys ++ [key]))%nat).
  { destruct keys; [by apply elem_of_nil in Hin|]. simpl. rewrite length_app. simpl. lia. }
  assert (Hdup : ¬ NoDup (keys ++ [key])).
  { intros [_ [Hdis _]]%NoDup_app. apply (Hdis key Hin). by apply list_elem_of_singleton. }
  assert (Hall : ∀ j, (j < 100)%nat →
    isCollisionFree (keys ++ [key]) (attempt_a rand c j) (attempt_b rand c j) PRIME
      ((Z.of_nat (length keys) + 1) * (Z.of_nat (length keys) + 1)) = Some false).
  { intros j _.
    destruct (isCollisionFree_is_Some (keys ++ [key]) (attempt_a rand c j)
                (attempt_b rand c j)
                ((Z.of_nat (length keys) + 1) * (Z.of_nat (length keys) + 1)))
      as [[|] Hfree]; [nia| |done].
    by apply collisionLoop_dup in Hfree. }
  assert (Hb : buildTable rand (keys ++ [key]) t c =
               Some (false, SecondaryTable.set_p PRIME t, (c + 300)%nat)).
  { rewrite buildTable_search, Hlen by (rewrite ?Hlen; done).
    by rewrite (attemptLoop_all_collide rand 100 _ _ t c Hall). }
  eexists. split; [by eapply insert_intro|]. split; [|done].
  simpl. by eapply at_insert_eq.
Qed.

(** The key 10 is inserted twice. *)
Lemma duplicate_insert_rejected_witness :
  ∃ s0 c0 s1 c1,
    construct rand_scaled 5 0 = Some (s0, c0) ∧
    insert rand_scaled 10 s0 c0 = Some (true, s1, c1) ∧
    bucketIndex 10 s1 = Some 3 ∧
    at_ (buckets s1) 3 = Some [10] ∧
    at_ (secondLevel s1) 3 = Some (SecondaryTable.mk [10] 1 1 0 PRIME) ∧
    ∃ s2,
      insert rand_scaled 10 s1 c1 = Some (false, s2, (c1 + 300)%nat) ∧
      at_ (buckets s2) 3 = Some [10; 10] ∧
      ∀ j, (j < 100)%nat →
        isCollisionFree [10; 10] (attempt_a rand_scaled c1 j) (attempt_b rand_scaled c1 j)
          PRIME 4 = Some false.
Proof.
  do 4 eexists. step H0. step H1. step H2. step H3. step H4.
  exact (duplicate_insert_rejected rand_scaled 10 3 _ _ [10] _ H2 H3 H4
           ltac:(by apply list_elem_of_singleton) ltac:(vm_compute; discriminate)).
Defined.

(** C6 (termination).  [buildSecondaryTable] returns for every key list.
    For the empty and the one-key list it returns true at once, without a
    call of the generator.  Otherwise it makes at most 100 attempts (three
    calls of [rand()] each); when it returns false it has made exactly 100;
    when all 100 candidate functions collide it returns false, leaving the
    table as it was; and over non-negative keys it always returns.
    [insert] returns what the build over the extended list returns. *)
Theorem build_terminates (rand : nat → Z) (idx : Z) (s : PerfectHashing) (c : nat)
    (keys : list Z) (t : SecondaryTable.t) :
  at_ (buckets s) idx = Some keys →
  at_ (secondLevel s) idx = Some t →
  (keys = [] →
     buildSecondaryTable rand idx s c =
       Some (true,
             set_secondLevel
               (<[Z.to_nat idx := SecondaryTable.set_size 0 t]> (secondLevel s)) s,
             c)) ∧
  (∀ x, keys = [x] →
     buildSecondaryTable rand idx s c =
       Some (true,
             set_secondLevel
               (<[Z.to_nat idx := SecondaryTable.mk [x] 1 1 0 PRIME]> (secondLevel s)) s,
             c)) ∧
  ((2 ≤ length keys)%nat →
   Z.of_nat (length keys) * Z.of_nat (length keys) ≤ INT_MAX →
     (∀ ok s' c', buildSecondaryTable rand idx s c = Some (ok, s', c') →
        ∃ j, (1 ≤ j ≤ 100)%nat ∧ c' = (c + 3 * j)%nat ∧ (ok = false → j = 100%nat)) ∧
     ((∀ j, (j < 100)%nat →
         isCollisionFree keys (attempt_a rand c j) (attempt_b rand c j) PRIME
           (Z.of_nat (length keys) * Z.of_nat (length keys)) = Some false) →
      buildSecondaryTable rand idx s c =
        Some (false,
              set_secondLevel
                (<[Z.to_nat idx := SecondaryTable.set_p PRIME t]> (secondLevel s)) s,
              (c + 300)%nat)) ∧
     ((∀ i, 0 ≤ rand i ≤ RAND_MAX) → (∀ x, x ∈ keys → 0 ≤ x) →
      is_Some (buildSecondaryTable rand idx s c))) ∧
  (∀ key sI cI idxI keysI,
     bucketIndex key sI = Some idxI → at_ (buckets sI) idxI = Some keysI →
     insert rand key sI cI =
       buildSecondaryTable rand idxI
         (set_buckets (<[Z.to_nat idxI := keysI ++ [key]]> (buckets sI)) sI) cI).
Proof.
  intros Hk Ht. split_and!.
  - intros ->. by eapply buildSecondaryTable_intro.
  - intros x ->. eapply buildSecondaryTable_intro; [done..|]. apply buildTable_single.
  - intros Hlen Hfit. split_and!.
    + intros ok s' c' (keys' & t0 & t' & Hk' & Ht' & Hb & _)%buildSecondaryTable_inv.
      assert (keys' = keys) as -> by congruence.
      rewrite buildTable_search in Hb by done. destruct ok.
      * apply attemptLoop_true in Hb as (j & tbl & Hj & -> & _).
        exists (j + 1)%nat. split_and!; [lia|lia|done|done].
      * apply attemptLoop_false in Hb as (-> & _). exists 100%nat.
        split_and!; [lia|lia|done|done].
    + intros Hall. eapply buildSecondaryTable_intro; [done..|].
      rewrite buildTable_search by done.
      by rewrite (attemptLoop_all_collide rand 100 _ _ t c Hall).
    + intros Hrange Hpos.
      destruct (buildTable_is_Some rand Hrange keys t c Hpos Hfit) as [[[ok t'] c'] Hb].
      erewrite buildSecondaryTable_intro; done.
  - intros key sI cI idxI keysI Hidx HkI. unfold insert.
    rewrite Hidx. simpl. by rewrite HkI.
Qed.

(** The bucket that holds 10 and 20 under the generator that keeps
    returning 3: every attempt draws [a = 4], [b = 3], under which the two
    keys share slot 3 of 4, and the build returns false after 300 calls. *)
Lemma build_terminates_witness :
  ∃ s0 c0 s1 c1 s2,
    construct rand_three 5 0 = Some (s0, c0) ∧
    insert rand_three 10 s0 c0 = Some (true, s1, c1) ∧
    s2 = set_buckets (<[3%nat := [10; 20]]> (buckets s1)) s1 ∧
    at_ (buckets s2) 3 = Some [10; 20] ∧
    at_ (secondLevel s2) 3 = Some (SecondaryTable.mk [10] 1 1 0 PRIME) ∧
    buildSecondaryTable rand_three 3 s2 c1 =
      Some (false,
            set_secondLevel
              (<[3%nat := SecondaryTable.set_p PRIME (SecondaryTable.mk [10] 1 1 0 PRIME)]>
                 (secondLevel s2)) s2,
            (c1 + 300)%nat).
Proof.
  do 5 eexists. step H0. step H1. step H2. step H3. step H4.
  destruct (build_terminates rand_three 3 _ 3 _ _ H3 H4) as (_ & _ & Hsearch & _).
  destruct (Hsearch ltac:(simpl; lia) ltac:(vm_compute; discriminate)) as (_ & Hfail & _).
  apply Hfail. intros j _. reflexivity.
Defined.

(** ** Failed rebuilds and keys that were never inserted *)

Lemma probe_true_inv (key : Z) (t : SecondaryTable.t) :
  probe key t = Some true →
  SecondaryTable.size t ≠ 0 ∧ key ∈ SecondaryTable.table t.
Proof.
  unfold probe. destruct (decide _) as [|Hsz]; [done|].
  destruct (slotOf key t) as [h|]; simpl; [|done].
  destruct (at_ (SecondaryTable.table t) h) as [x|] eqn:Hx; simpl; [|done].
  intros [= Hb%bool_decide_eq_true_1]. subst x. split; [done|].
  apply at_Some in Hx as [_ Hx]. by eapply list_elem_of_lookup_2.
Qed.

Lemma search_secondLevel (key : Z) (s s' : PerfectHashing) :
  secondLevel s' = secondLevel s →
  (∀ k, bucketIndex k s' = bucketIndex k s) →
  search key s' = search key s.
Proof. intros Hss Hidx. unfold search. by rewrite Hss, Hidx. Qed.

(** A failed [insert] into a well-formed table leaves the whole vector of
    secondary tables as it was. *)
Lemma insert_false_secondLevel (rand : nat → Z) (key : Z) (s s' : PerfectHashing)
    (c c' : nat) :
  wf s → insert rand key s c = Some (false, s', c') →
  secondLevel s' = secondLevel s.
Proof.
  intros (_ & _ & _ & _ & Htab).
  intros (idx & keys & t & t' & _ & Hk & Ht & Hb & _ & -> & _)%insert_inv.
  apply buildTable_false in Hb as (Hlen & -> & _).
  destruct keys as [|k0 keys]; [simpl in Hlen; lia|].
  destruct (Htab _ _ _ Hk Ht) as (Hp & _).
  rewrite set_p_same by done. apply list_insert_id.
  by apply at_Some in Ht as [_ Ht].
Qed.

(** C4.  In a table reached from the constructor by inserts, an [insert]
    that returns false (the rebuild failed) leaves the installed secondary
    tables, with their slot arrays, sizes and parameters, as they were:
    every [search] answers as before, and in particular every key whose own
    [insert] had returned true is still found. *)
Theorem failed_rebuild_keeps_table (rand : nat → Z) (n : Z) (c0 c1 c c' : nat)
    (ks : list Z) (key : Z) (s0 s s' : PerfectHashing) :
  construct rand n c0 = Some (s0, c1) →
  insertAll rand ks s0 c1 = Some (s, c) →
  insert rand key s c = Some (false, s', c') →
  secondLevel s' = secondLevel s ∧
  (∀ k, search k s' = search k s) ∧
  ∀ (before after : list Z) (k : Z) (sb sk : PerfectHashing) (cb ck : nat),
    insertAll rand before s0 c1 = Some (sb, cb) →
    insert rand k sb cb = Some (true, sk, ck) →
    insertAll rand after sk ck = Some (s, c) →
    search k s' = Some true.
Proof.
  intros Hc Hall Hins.
  destruct (reachable_wf rand _ _ _ _ _ _ _ Hc Hall) as (Hwf & _ & _).
  pose proof (insert_false_secondLevel rand _ _ _ _ _ Hwf Hins) as Hss.
  split_and!; [done| |].
  - intros k. apply search_secondLevel; [done|].
    intros k'. by eapply insert_bucketIndex.
  - intros before after k sb sk cb ck _ Hk Hafter.
    apply indexed_search. eapply insert_indexed; [|exact Hins].
    eapply insertAll_indexed; [|exact Hafter].
    eapply insert_true_indexed; [exact Hk| |done].
    by eapply insert_listed_new.
Qed.

(** Under the generator that keeps returning 3, 10 is inserted with
    success and the insert of 20 fails: the tables are unchanged and 10 is
    still found. *)
Lemma failed_rebuild_keeps_table_witness :
  ∃ s0 c1 s c s' c',
    construct rand_three 5 0 = Some (s0, c1) ∧
    insertAll rand_three [10] s0 c1 = Some (s, c) ∧
    insert rand_three 20 s c = Some (false, s', c') ∧
    search 10 s = Some true ∧
    secondLevel s' = secondLevel s ∧
    search 10 s' = search 10 s.
Proof.
  do 6 eexists. step H0. step H1. step H2. step H3.
  destruct (failed_rebuild_keeps_table rand_three 5 0 _ _ _ [10] 20 _ _ _ H0 H1 H2)
    as (Hss & Hsearch & _).
  split; [exact Hss|exact (Hsearch 10)].
Defined.

(** C1 as stated fails: the filler of the free slots is the value -1, which
    [search] compares with the key like any stored key.  With [a1 = b1 = 2]
    and, for the bucket of 4 and 9, [a = b = 5], the key -1 is routed to
    that bucket and to its free slot 0. *)
Lemma no_false_positives_counterexample :
  ¬ (∀ (rand : nat → Z) (n : Z) (c0 c1 c : nat) (ks : list Z) (key : Z)
       (s0 s : PerfectHashing),
       construct rand n c0 = Some (s0, c1) →
       insertAll rand ks s0 c1 = Some (s, c) →
       key ∉ ks →
       search key s = Some false).
Proof.
  intros Hclaim.
  eassert (H0 : construct rand_index 5 0 = Some (_, _)) by run.
  match type of H0 with
  | _ = Some (?s0, ?c1) =>
      eassert (H1 : insertAll rand_index [4; 9] s0 c1 = Some (_, _)) by run
  end.
  assert (Hnew : (-1) ∉ [4; 9]) by (rewrite !not_elem_of_cons; split_and!; [lia..|apply not_elem_of_nil]).
  specialize (Hclaim _ _ _ _ _ _ _ _ _ H0 H1 Hnew).
  vm_compute in Hclaim. discriminate Hclaim.
Qed.

(** C1, amended (no false positives).  In a table reached from the
    constructor by inserting [ks], a key that is not among [ks] and is not
    the filler -1 is never reported found; and when it is non-negative (on
    a table of [n > 0] buckets) [search] returns false. *)
Theorem no_false_positives (rand : nat → Z) (n : Z) (c0 c1 c : nat)
    (ks : list Z) (key : Z) (s0 s : PerfectHashing) :
  construct rand n c0 = Some (s0, c1) →
  insertAll rand ks s0 c1 = Some (s, c) →
  key ∉ ks →
  (key ≠ EMPTY → search key s ≠ Some true) ∧
  ((∀ i, 0 ≤ rand i ≤ RAND_MAX) → 0 < n → 0 ≤ key → search key s = Some false).
Proof.
  intros Hc Hall Hnew.
  destruct (reachable_wf rand _ _ _ _ _ _ _ Hc Hall) as (Hwf & Hfrom & Hn).
  assert (Hpos : key ≠ EMPTY → search key s ≠ Some true).
  { intros Hkey Hfound. unfold search in Hfound.
    destruct (bucketIndex key s) as [idx|]; simpl in Hfound; [|done].
    destruct (at_ (secondLevel s) idx) as [t|] eqn:Ht; simpl in Hfound; [|done].
    apply probe_true_inv in Hfound as [Hsz Hin].
    destruct Hwf as (_ & Hlb & Hls & _ & Htab).
    destruct (at_is_Some (buckets s) idx) as [keys Hk].
    { apply at_lt in Ht. lia. }
    pose proof (Htab _ _ _ Hk Ht) as Hwft.
    destruct keys as [|k0 keys]; [done|].
    destruct Hwft as (_ & _ & _ & Hcontents).
    destruct (Hcontents _ Hin) as [|Hin']; [done|].
    apply Hnew. by eapply Hfrom. }
  split; [exact Hpos|].
  intros Hrange Hn0 Hkey.
  assert (Hnn : nonneg_params s).
  { eapply insertAll_nonneg; [done| |exact Hall]. by eapply construct_nonneg. }
  destruct (search_is_Some key s Hwf Hnn ltac:(lia) Hkey) as [[|] Hs]; [|done].
  exfalso. apply Hpos; [unfold EMPTY; lia|done].
Qed.

(** The scenario of the specification: 100 and 99 were never inserted. *)
Lemma no_false_positives_witness :
  ∃ s0 c1 s c,
    construct rand_scaled 5 0 = Some (s0, c1) ∧
    insertAll rand_scaled [10; 25; 35; 45; 15; 20; 30] s0 c1 = Some (s, c) ∧
    (100 ∉ [10; 25; 35; 45; 15; 20; 30]) ∧
    search 100 s = Some false.
Proof.
  do 4 eexists. step H0. step H1.
  apply conj_keep.
  { rewrite !not_elem_of_cons. split_and!; [lia..|apply not_elem_of_nil]. }
  intros Hnew.
  apply (no_false_positives rand_scaled 5 0 _ _ _ 100 _ _ H0 H1 Hnew);
    [apply rand_scaled_range|lia|lia].
Defined.

(** C9 (array bounds).  In a table of [n > 0] buckets reached from the
    constructor by inserts, under a generator with values in
    [0, RAND_MAX], every non-negative key has its primary index inside the
    two vectors and, when the bucket's table is not empty, its secondary
    slot inside the slot array, whose length is the table's size: [search]
    of the key reads inside the arrays.  When moreover all the inserted
    keys are non-negative (and the square of the bucket sizes fits an
    [int]), [insert] of the key writes inside the arrays.  For a negative
    key the slot can be negative: -1 under [a = 1], [b = 0] has slot -1 of
    4, and in a fresh table with these level-1 parameters both [search] and
    [insert] of -1 index the vectors at -1. *)
Theorem slot_in_bounds :
  (∀ (rand : nat → Z) (n : Z) (c0 c1 c : nat) (ks : list Z) (key : Z)
     (s0 s : PerfectHashing),
     (∀ i, 0 ≤ rand i ≤ RAND_MAX) → 0 < n →
     construct rand n c0 = Some (s0, c1) →
     insertAll rand ks s0 c1 = Some (s, c) →
     0 ≤ key →
     (∃ idx keys t,
        bucketIndex key s = Some idx ∧
        0 ≤ idx < Z.of_nat (length (buckets s)) ∧
        0 ≤ idx < Z.of_nat (length (secondLevel s)) ∧
        at_ (buckets s) idx = Some keys ∧ at_ (secondLevel s) idx = Some t ∧
        (SecondaryTable.size t ≠ 0 →
           ∃ h, slotOf key t = Some h ∧ 0 ≤ h < SecondaryTable.size t ∧
             SecondaryTable.size t = Z.of_nat (length (SecondaryTable.table t)))) ∧
     is_Some (search key s) ∧
     ((∀ k, k ∈ ks → 0 ≤ k) →
      (∀ idx keys, at_ (buckets s) idx = Some keys →
         (Z.of_nat (length keys) + 1) * (Z.of_nat (length keys) + 1) ≤ INT_MAX) →
      is_Some (insert rand key s c))) ∧
  (∃ key a b tableSize h,
     key < 0 ∧ 1 ≤ a < PRIME ∧ 0 ≤ b < PRIME ∧ 0 < tableSize ∧
     slot key a b PRIME tableSize = Some h ∧ h < 0) ∧
  (∃ s0 c1,
     construct rand_zero 5 0 = Some (s0, c1) ∧
     bucketIndex (-1) s0 = Some (-1) ∧
     search (-1) s0 = None ∧ insert rand_zero (-1) s0 c1 = None).
Proof.
  split_and!.
  - intros rand n c0 c1 c ks key s0 s Hrange Hn Hc Hall Hkey.
    destruct (reachable_wf rand _ _ _ _ _ _ _ Hc Hall) as (Hwf & Hfrom & Hsz).
    assert (Hnn : nonneg_params s).
    { eapply insertAll_nonneg; [done| |exact Hall]. by eapply construct_nonneg. }
    assert (Hn' : 0 < primarySize s) by lia.
    split_and!.
    + destruct (bucketIndex_in_bounds key s Hwf Hnn Hn' Hkey)
        as (idx & keys & t & Hidx & Hb & Hk & Ht).
      exists idx, keys, t.
      split; [done|]. split; [apply at_lt in Hk; lia|].
      split; [apply at_lt in Ht; lia|]. split; [done|]. split; [done|].
      intros Hsize. destruct Hwf as (_ & _ & _ & _ & Htab).
      destruct Hnn as (_ & _ & Hsec). destruct (Hsec _ _ Ht) as [Ha Hb'].
      destruct (slotOf_in_bounds key keys t (Htab _ _ _ Hk Ht) Ha Hb' Hsize Hkey)
        as (h & x & Hs & Hh & Hlen & _).
      exists h. split; [done|]. split; [done|]. by rewrite Hlen.
    + by apply search_is_Some.
    + intros Hks Hfit.
      exact (insert_is_Some rand Hrange key s c ks Hwf Hnn Hfrom Hn' Hks Hkey Hfit).
  - exists (-1), 1, 0, 4, (-1). unfold PRIME. repeat (split; [lia|]).
    split; [reflexivity|lia].
  - do 2 eexists. split; [run|]. split; [run|]. split; run.
Qed.

(** Reading and writing inside the arrays: 50 is searched and inserted
    after the seven keys of the demonstration. *)
Lemma slot_in_bounds_witness :
  ∃ s0 c1 s c,
    construct rand_scaled 5 0 = Some (s0, c1) ∧
    insertAll rand_scaled [10; 25; 35; 45; 15; 20; 30] s0 c1 = Some (s, c) ∧
    ∃ idx keys t,
      bucketIndex 50 s = Some idx ∧
      0 ≤ idx < Z.of_nat (length (buckets s)) ∧
      0 ≤ idx < Z.of_nat (length (secondLevel s)) ∧
      at_ (buckets s) idx = Some keys ∧ at_ (secondLevel s) idx = Some t ∧
      (SecondaryTable.size t ≠ 0 →
         ∃ h, slotOf 50 t = Some h ∧ 0 ≤ h < SecondaryTable.size t ∧
           SecondaryTable.size t = Z.of_nat (length (SecondaryTable.table t))).
Proof.
  do 4 eexists. step H0. step H1.
  exact (proj1 (proj1 slot_in_bounds rand_scaled 5 0%nat _ _ _ 50 _ _
                  rand_scaled_range ltac:(lia) H0 H1 ltac:(lia))).
Defined.

(** * Further properties of the operations *)

(** ** The hash function and its parameters *)

(** X3.  [hashFunction] with a modulus that fits an [int]: the narrowing to
    [int] loses nothing, the result is the truncated remainder, of absolute
    value below [p], and it is non-negative when [a * key + b] is.  With
    [p = 0] the division is undefined. *)
Theorem hashFunction_range (key a b p : Z) :
  (p = 0 → hashFunction key a b p = None) ∧
  (0 < p ≤ INT_MAX →
     hashFunction key a b p = Some (Z.rem (a * key + b) p) ∧
     - p < Z.rem (a * key + b) p < p ∧
     (0 ≤ a * key + b → 0 ≤ Z.rem (a * key + b) p)).
Proof.
  split.
  - intros ->. reflexivity.
  - intros Hp. pose proof (Z.rem_bound_abs (a * key + b) p ltac:(lia)) as Habs.
    split_and!; [|lia|lia|].
    + unfold hashFunction. destruct (decide (p = 0)) as [|_]; [lia|].
      f_equal. apply to_int_id. unfold INT_MIN, INT_MAX in *. lia.
    + intros Hnn. apply Z.rem_nonneg; lia.
Qed.

(** X2.  [randomizeHashFunction] with a generator in range and a modulus
    [2 <= prime <= INT_MAX]: it makes three calls of [rand()], sets the
    modulus to [prime] and draws [a] in [1, prime - 1] and [b] in
    [0, prime - 1]. *)
Theorem randomizeHashFunction_range (rand : nat → Z) (prime : Z) (c : nat) :
  (∀ i, 0 ≤ rand i ≤ RAND_MAX) →
  2 ≤ prime ≤ INT_MAX →
  ∃ a b,
    randomizeHashFunction rand prime c = (a, b, prime, (c + 3)%nat) ∧
    1 ≤ a ≤ prime - 1 ∧ 0 ≤ b ≤ prime - 1.
Proof.
  intros Hrange Hprime. unfold randomizeHashFunction.
  pose proof (Hrange (c + 1)%nat) as Ha. pose proof (Hrange (c + 2)%nat) as Hb.
  assert (Hra : 0 ≤ Z.rem (rand (c + 1)%nat) (prime - 1) ≤ prime - 2).
  { destruct (decide (prime = 2)) as [->|Hne].
    - change (2 - 1) with 1. rewrite Z.rem_1_r. lia.
    - pose proof (Z.rem_bound_pos (rand (c + 1)%nat) (prime - 1)). lia. }
  assert (Hrb : 0 ≤ Z.rem (rand (c + 2)%nat) prime ≤ prime - 1).
  { pose proof (Z.rem_bound_pos (rand (c + 2)%nat) prime). lia. }
  unfold INT_MAX in *.
  rewrite !to_int_id by (unfold INT_MIN, INT_MAX; lia).
  eexists _, _. split; [reflexivity|]. lia.
Qed.

Lemma randomizeHashFunction_range_witness :
  (∀ i, 0 ≤ rand_scaled i ≤ RAND_MAX) ∧ 2 ≤ PRIME ≤ INT_MAX ∧
  ∃ a b,
    randomizeHashFunction rand_scaled PRIME 0 = (a, b, PRIME, 3%nat) ∧
    1 ≤ a ≤ PRIME - 1 ∧ 0 ≤ b ≤ PRIME - 1.
Proof.
  apply conj_keep; [exact rand_scaled_range|intros Hr].
  apply conj_keep; [unfold PRIME, INT_MAX; lia|intros Hp].
  exact (randomizeHashFunction_range rand_scaled PRIME 0 Hr Hp).
Defined.

(** ** The collision check, exactly *)

Lemma collisionLoop_spec (keys : list Z) (a b p ts : Z) (hashed : gset Z) :
  p ≠ 0 → 0 < ts →
  collisionLoop keys a b p ts hashed =
  Some (bool_decide
          (NoDup (map (λ k, Z.rem (to_int (Z.rem (a * k + b) p)) ts) keys) ∧
           Forall (λ h, h ∉ hashed)
             (map (λ k, Z.rem (to_int (Z.rem (a * k + b) p)) ts) keys))).
Proof.
  intros Hp Hts. revert hashed. induction keys as [|key rest IH]; intros hashed.
  - cbn [collisionLoop map]. rewrite bool_decide_eq_true_2; [done|]. split; constructor.
  - cbn [collisionLoop map]. unfold slot, hashFunction.
    destruct (decide (p = 0)) as [|_]; [done|]. simpl.
    rewrite int_rem_pos by done. simpl.
    set (h := Z.rem (to_int (Z.rem (a * key + b) p)) ts).
    set (hs := map (λ k, Z.rem (to_int (Z.rem (a * k + b) p)) ts) rest) in *.
    destruct (decide (h ∈ hashed)) as [Hin|Hnew].
    + rewrite bool_decide_eq_false_2; [done|].
      intros [_ Hall]. by apply Forall_cons in Hall as [Hh _].
    + rewrite IH. f_equal. apply bool_decide_ext.
      rewrite NoDup_cons, Forall_cons, !Forall_forall. split.
      * intros [HN Hall]. split_and!; [|done|done|].
        -- intros Hh. apply (Hall h Hh). apply elem_of_union. left.
           by apply elem_of_singleton.
        -- intros x Hx Hin'. apply (Hall x Hx). apply elem_of_union. by right.
      * intros [[Hh HN] [_ Hall]]. split; [done|].
        intros x Hx [Heq%elem_of_singleton|Hin']%elem_of_union.
        -- by subst x.
        -- by apply (Hall x Hx).
Qed.

(** X1.  [isCollisionFree] under a non-zero modulus and a positive table size
    answers true exactly when the slots of the keys, taken in order with
    repetitions, are pairwise distinct. *)
Theorem isCollisionFree_spec (keys : list Z) (a b p tableSize : Z) :
  p ≠ 0 → 0 < tableSize →
  isCollisionFree keys a b p tableSize =
  Some (bool_decide
          (NoDup (map (λ k, Z.rem (to_int (Z.rem (a * k + b) p)) tableSize) keys))).
Proof.
  intros Hp Hts. unfold isCollisionFree. rewrite collisionLoop_spec by done.
  f_equal. apply bool_decide_ext. split; [by intros [? _]|].
  intros HN. split; [done|]. apply Forall_forall. intros x _. apply not_elem_of_empty.
Qed.

Lemma isCollisionFree_spec_witness :
  PRIME ≠ 0 ∧ 0 < 4 ∧
  isCollisionFree [10; 20] 4 3 PRIME 4 = Some false ∧
  isCollisionFree [4; 9] 5 5 PRIME 4 = Some true.
Proof.
  apply conj_keep; [done|intros Hp]. apply conj_keep; [lia|intros Hts].
  rewrite !(isCollisionFree_spec _ _ _ _ _ Hp Hts). split; reflexivity.
Defined.

(** ** What the secondary tables index *)

Lemma built_NoDup (keys : list Z) (t : SecondaryTable.t) : built keys t → NoDup keys.
Proof.
  intros Hb. apply NoDup_alt. intros i j x Hi Hj.
  destruct (decide (i = j)) as [|Hne]; [done|].
  destruct (built_distinct _ _ Hb i j x x Hne Hi Hj) as (hi & hj & Hsi & Hsj & Hdiff).
  congruence.
Qed.

Lemma built_size_square (keys : list Z) (t : SecondaryTable.t) :
  built keys t →
  SecondaryTable.size t = Z.of_nat (length keys) * Z.of_nat (length keys).
Proof.
  intros Hb. rewrite (built_size _ _ Hb).
  destruct (decide (length keys = 1%nat)) as [->|]; [reflexivity|done].
Qed.

Lemma exact_single (key0 : Z) : exact [key0] (SecondaryTable.mk [key0] 1 1 0 PRIME).
Proof.
  intros j x Hx _. simpl in Hx. apply at_Some in Hx as [Hj Hx].
  destruct (Z.to_nat j) as [|n] eqn:Hn; simpl in Hx; [|done].
  injection Hx as <-. assert (j = 0) as -> by lia.
  split; [by apply list_elem_of_singleton|].
  unfold slotOf. simpl. rewrite slot_PRIME by lia. by rewrite Z.rem_1_r.
Qed.

Section Indexing.

Variable rand : nat → Z.

(** A successful build leaves nothing but the keys of the list, each at its
    slot, and the filler. *)
Lemma buildTable_exact (keys : list Z) (t t' : SecondaryTable.t) (c c' : nat) :
  keys ≠ [] →
  buildTable rand keys t c = Some (true, t', c') →
  exact keys t'.
Proof.
  intros Hne [[-> _]|[(key0 & -> & [= -> ->])|(Hk & Hfit & Hloop)]]%buildTable_cases;
    [done|apply exact_single|].
  apply attemptLoop_true in Hloop as (j & tbl & _ & _ & Hfree & Hplace & ->).
  apply collisionLoop_true in Hfree as (hs & HF & HN & _).
  destruct (placeKeys_spec _ _ _ _ _ _ _ Hplace HF HN) as [Hin Hout].
  intros i x Hx Hfill. simpl in Hx.
  destruct (decide (i ∈ hs)) as [Hi|Hi].
  - apply list_elem_of_lookup in Hi as [m Hm].
    destruct (Forall2_lookup_r _ _ _ _ _ HF Hm) as (k & Hk' & Hs).
    rewrite (Hin _ _ _ Hk' Hm) in Hx. injection Hx as <-.
    split; [by eapply list_elem_of_lookup_2|exact Hs].
  - rewrite (Hout _ Hi) in Hx. by apply at_replicate in Hx as [-> _].
Qed.

Lemma buildTable_fit (keys : list Z) (t t' : SecondaryTable.t) (c c' : nat) :
  keys ≠ [] →
  buildTable rand keys t c = Some (true, t', c') →
  SecondaryTable.size t' ≤ INT_MAX.
Proof.
  intros Hne [[-> _]|[(key0 & -> & [= -> ->])|(Hk & Hfit & Hloop)]]%buildTable_cases;
    [done|by unfold INT_MAX|].
  by apply attemptLoop_true in Hloop as (j & tbl & _ & _ & _ & _ & ->).
Qed.

Lemma construct_all_indexed (n : Z) (c c1 : nat) (s0 : PerfectHashing) :
  construct rand n c = Some (s0, c1) → all_indexed s0 ∧ routed s0.
Proof.
  intros (Hn & _ & ->)%construct_inv. split.
  - intros idx keys t [-> _]%at_replicate [-> _]%at_replicate.
    exists []. split_and!; [done..|unfold INT_MAX; simpl; lia|done].
  - intros idx keys key [-> _]%at_replicate Hin. by apply elem_of_nil in Hin.
Qed.

Lemma insert_all_indexed (key : Z) (s s' : PerfectHashing) (c c' : nat) (ok : bool) :
  all_indexed s → insert rand key s c = Some (ok, s', c') → all_indexed s'.
Proof.
  intros Hinv (idx & keys & t & t' & _ & Hk & Ht & Hb & Hbs & Hss & _)%insert_inv.
  pose proof (at_lt _ _ _ Hk) as Hrange.
  intros j l tj. rewrite Hbs, Hss. destruct (decide (idx = j)) as [<-|Hne].
  - rewrite (at_insert_eq _ _ _ _ Hk), (at_insert_eq _ _ _ _ Ht).
    intros [= <-] [= <-].
    assert (Hne : keys ++ [key] ≠ []) by (by destruct keys).
    destruct ok.
    + pose proof (buildTable_true rand _ _ _ _ _ Hne Hb) as Hbuilt.
      exists (keys ++ [key]).
      split_and!; [done|done|by apply built_size_square|by eapply buildTable_fit|].
      intros _. split; [done|]. by eapply buildTable_exact.
    + apply buildTable_false in Hb as (Hlen & -> & _).
      assert (Hk0 : keys ≠ []) by (intros ->; simpl in Hlen; lia).
      destruct (Hinv _ _ _ Hk Ht) as (pre & Hpre & Hne' & Hsize & Hfit & Hbuilt).
      destruct (Hbuilt (Hne' Hk0)) as [Hb' He].
      rewrite set_p_same by exact (built_p _ _ Hb').
      exists pre.
      split_and!; [by apply prefix_app_r|by intros _; apply Hne'|done|done|done].
  - rewrite !at_insert_ne by lia. apply Hinv.
Qed.

Lemma insert_routed (key : Z) (s s' : PerfectHashing) (c c' : nat) (ok : bool) :
  routed s → insert rand key s c = Some (ok, s', c') → routed s'.
Proof.
  intros Hinv Hins.
  pose proof (λ k, insert_bucketIndex rand key k _ _ _ _ _ Hins) as Hsame.
  apply insert_inv in Hins as (idx & keys & t & t' & Hidx & Hk & _ & _ & Hbs & _).
  pose proof (at_lt _ _ _ Hk) as Hrange.
  intros j l k. rewrite Hbs, Hsame. destruct (decide (idx = j)) as [<-|Hne].
  - rewrite (at_insert_eq _ _ _ _ Hk). intros [= <-] [Hin|Hin]%elem_of_app.
    + by eapply Hinv.
    + by apply list_elem_of_singleton in Hin as ->.
  - rewrite at_insert_ne by lia. apply Hinv.
Qed.

Lemma insertAll_all_indexed (ks : list Z) (s s' : PerfectHashing) (c c' : nat) :
  all_indexed s ∧ routed s → insertAll rand ks s c = Some (s', c') →
  all_indexed s' ∧ routed s'.
Proof.
  revert s c. induction ks as [|k ks IH]; intros s c [Hinv Hr]; simpl.
  - by intros [= <- <-].
  - destruct (insert rand k s c) as [[[ok s1] c1]|] eqn:Hins; simpl; [|done].
    apply IH. split; [by eapply insert_all_indexed|by eapply insert_routed].
Qed.

Lemma reachable_all_indexed (n : Z) (c0 c1 c : nat) (ks : list Z) (s0 s : PerfectHashing) :
  construct rand n c0 = Some (s0, c1) →
  insertAll rand ks s0 c1 = Some (s, c) →
  all_indexed s ∧ routed s.
Proof.
  intros Hc Hall. eapply insertAll_all_indexed; [|exact Hall].
  by eapply construct_all_indexed.
Qed.

End Indexing.

(** The answer of the level-2 probe in terms of the indexed keys. *)
Lemma probe_indexes (key : Z) (pre keys : list Z) (t : SecondaryTable.t) :
  indexes pre keys t →
  (key ∈ pre → probe key t = Some true) ∧
  (key ∉ pre → key ≠ EMPTY → probe key t ≠ Some true).
Proof.
  intros (Hpre & Hne & Hsize & _ & Hbuilt). split.
  - intros Hin. assert (Hne' : pre ≠ []) by (intros ->; by apply elem_of_nil in Hin).
    destruct (Hbuilt Hne') as [Hb _]. by eapply built_probe.
  - intros Hnot Hfill [Hsz Hin]%probe_true_inv.
    assert (Hne' : pre ≠ []).
    { intros ->. simpl in Hsize. lia. }
    destruct (Hbuilt Hne') as [_ He].
    apply list_elem_of_lookup in Hin as [i Hi].
    destruct (He (Z.of_nat i) key) as [Hin' _]; [|done|done].
    apply at_Some. split; [lia|]. by rewrite Nat2Z.id.
Qed.

Lemma search_indexes (key idx : Z) (pre keys : list Z) (s : PerfectHashing)
    (t : SecondaryTable.t) :
  bucketIndex key s = Some idx → at_ (secondLevel s) idx = Some t →
  indexes pre keys t → is_Some (search key s) → key ≠ EMPTY →
  search key s = Some (bool_decide (key ∈ pre)).
Proof.
  intros Hidx Ht Hind [b Hs] Hfill. rewrite Hs. f_equal.
  unfold search in Hs. rewrite Hidx in Hs. simpl in Hs. rewrite Ht in Hs. simpl in Hs.
  destruct (probe_indexes key pre keys t Hind) as [Hyes Hno].
  destruct (decide (key ∈ pre)) as [Hin|Hnot].
  - rewrite bool_decide_eq_true_2 by done. specialize (Hyes Hin). congruence.
  - rewrite bool_decide_eq_false_2 by done. specialize (Hno Hnot Hfill).
    destruct b; [done|done].
Qed.

Lemma indexes_subset (pre keys : list Z) (t : SecondaryTable.t) (x : Z) :
  indexes pre keys t → x ∈ pre → x ∈ keys.
Proof.
  intros ([rest ->] & _) Hx. apply elem_of_app. by left.
Qed.

(** X5.  [search], exactly.  In a table of [n > 0] buckets reached from the
    constructor by inserts (generator in range), the answer for a
    non-negative key is whether the key belongs to the part of its
    bucket's list that the bucket's table indexes: a prefix of the list,
    without repetitions, non-empty when the list is, whose length squared is
    the size of the table. *)
Theorem search_spec (rand : nat → Z) (n : Z) (c0 c1 c : nat) (ks : list Z)
    (key : Z) (s0 s : PerfectHashing) :
  (∀ i, 0 ≤ rand i ≤ RAND_MAX) → 0 < n →
  construct rand n c0 = Some (s0, c1) →
  insertAll rand ks s0 c1 = Some (s, c) →
  0 ≤ key →
  ∃ idx keys pre t,
    bucketIndex key s = Some idx ∧
    at_ (buckets s) idx = Some keys ∧ at_ (secondLevel s) idx = Some t ∧
    pre `prefix_of` keys ∧ (keys ≠ [] → pre ≠ []) ∧ NoDup pre ∧
    SecondaryTable.size t = Z.of_nat (length pre) * Z.of_nat (length pre) ∧
    search key s = Some (bool_decide (key ∈ pre)).
Proof.
  intros Hrange Hn Hc Hall Hkey.
  destruct (reachable_wf rand _ _ _ _ _ _ _ Hc Hall) as (Hwf & Hfrom & Hsz).
  destruct (reachable_all_indexed rand _ _ _ _ _ _ _ Hc Hall) as [Hind _].
  assert (Hnn : nonneg_params s).
  { eapply insertAll_nonneg; [done| |exact Hall]. by eapply construct_nonneg. }
  assert (Hn' : 0 < primarySize s) by lia.
  destruct (bucketIndex_in_bounds key s Hwf Hnn Hn' Hkey)
    as (idx & keys & t & Hidx & _ & Hk & Ht).
  destruct (Hind _ _ _ Hk Ht) as (pre & Hpre).
  exists idx, keys, pre, t.
  pose proof Hpre as (Hprefix & Hne & Hsize & _ & Hbuilt).
  split; [done|]. split; [done|]. split; [done|]. split; [done|]. split; [done|].
  split; [|split; [done|]].
  - destruct pre as [|k0 pre']; [constructor|].
    destruct (Hbuilt ltac:(done)) as [Hb _]. by eapply built_NoDup.
  - eapply search_indexes; [done..| |unfold EMPTY; lia].
    by apply search_is_Some.
Qed.

(** After 10 (success), 20 (failure) and 30 (success) under the generator
    that keeps returning 3, the table of bucket 3 indexes all three keys. *)
Lemma search_spec_witness :
  ∃ s0 c1 s c,
    construct rand_three 5 0 = Some (s0, c1) ∧
    insertAll rand_three [10; 20; 30] s0 c1 = Some (s, c) ∧
    ∃ idx keys pre t,
      bucketIndex 20 s = Some idx ∧
      at_ (buckets s) idx = Some keys ∧ at_ (secondLevel s) idx = Some t ∧
      pre `prefix_of` keys ∧ (keys ≠ [] → pre ≠ []) ∧ NoDup pre ∧
      SecondaryTable.size t = Z.of_nat (length pre) * Z.of_nat (length pre) ∧
      search 20 s = Some (bool_decide (20 ∈ pre)).
Proof.
  do 4 eexists. step H0. step H1.
  exact (search_spec rand_three 5 0 _ _ _ 20 _ _ rand_three_range ltac:(lia) H0 H1
           ltac:(lia)).
Defined.

(** X6.  [insert] then [search].  For a non-negative key that was not inserted
    before, [search] right after [insert] returns what [insert] returned:
    the key is found exactly when the rebuild succeeded. *)
Theorem insert_then_search (rand : nat → Z) (n : Z) (c0 c1 c c' : nat)
    (ks : list Z) (key : Z) (ok : bool) (s0 s s' : PerfectHashing) :
  (∀ i, 0 ≤ rand i ≤ RAND_MAX) → 0 < n →
  construct rand n c0 = Some (s0, c1) →
  insertAll rand ks s0 c1 = Some (s, c) →
  0 ≤ key → key ∉ ks →
  insert rand key s c = Some (ok, s', c') →
  search key s' = Some ok.
Proof.
  intros Hrange Hn Hc Hall Hkey Hnew Hins. destruct ok.
  - apply indexed_search. eapply insert_true_indexed; [exact Hins| |done].
    by eapply insert_listed_new.
  - destruct (reachable_wf rand _ _ _ _ _ _ _ Hc Hall) as (Hwf & Hfrom & Hsz).
    destruct (reachable_all_indexed rand _ _ _ _ _ _ _ Hc Hall) as [Hind _].
    assert (Hnn : nonneg_params s).
    { eapply insertAll_nonneg; [done| |exact Hall]. by eapply construct_nonneg. }
    rewrite (search_secondLevel key s s').
    + destruct (bucketIndex_in_bounds key s Hwf Hnn ltac:(lia) Hkey)
        as (idx & keys & t & Hidx & _ & Hk & Ht).
      destruct (Hind _ _ _ Hk Ht) as (pre & Hpre).
      rewrite (search_indexes key idx pre keys s t Hidx Ht Hpre);
        [|apply search_is_Some; [done..|lia|done]|unfold EMPTY; lia].
      rewrite bool_decide_eq_false_2; [done|].
      intros Hin. apply Hnew. eapply Hfrom; [exact Hk|]. by eapply indexes_subset.
    + by eapply insert_false_secondLevel.
    + intros k. by eapply insert_bucketIndex.
Qed.

(** The insert of 20 next to 10 fails under the generator that keeps
    returning 3, and 20 is not found. *)
Lemma insert_then_search_witness :
  ∃ s0 c1 s c s' c',
    construct rand_three 5 0 = Some (s0, c1) ∧
    insertAll rand_three [10] s0 c1 = Some (s, c) ∧
    insert rand_three 20 s c = Some (false, s', c') ∧
    search 20 s' = Some false.
Proof.
  do 6 eexists. step H0. step H1. step H2.
  refine (insert_then_search rand_three 5 0 _ _ _ [10] 20 false _ _ _
            rand_three_range _ H0 H1 _ _ H2); [lia|lia|].
  rewrite not_elem_of_cons. split; [lia|apply not_elem_of_nil].
Defined.

(** ** The buckets *)

Lemma insertAll_listed_all (rand : nat → Z) (ks : list Z) (s s' : PerfectHashing)
    (c c' : nat) :
  insertAll rand ks s c = Some (s', c') → ∀ k, k ∈ ks → listed k s'.
Proof.
  revert s c. induction ks as [|k0 ks IH]; intros s c; simpl.
  - intros _ k Hk. by apply elem_of_nil in Hk.
  - destruct (insert rand k0 s c) as [[[ok s1] c1]|] eqn:Hins; simpl; [|done].
    intros Hall k [->|Hk]%elem_of_cons.
    + eapply insertAll_listed; [|exact Hall]. by eapply insert_listed_new.
    + by eapply IH.
Qed.

(** X7.  The primary table partitions the inserted keys.  In a table reached
    from the constructor by inserting [ks], the list of bucket [idx] holds
    exactly the keys of [ks] that the level-1 function routes to [idx];
    so no key is in two buckets. *)
Theorem buckets_partition (rand : nat → Z) (n : Z) (c0 c1 c : nat) (ks : list Z)
    (s0 s : PerfectHashing) (idx : Z) (keys : list Z) (key : Z) :
  construct rand n c0 = Some (s0, c1) →
  insertAll rand ks s0 c1 = Some (s, c) →
  at_ (buckets s) idx = Some keys →
  (key ∈ keys ↔ key ∈ ks ∧ bucketIndex key s = Some idx).
Proof.
  intros Hc Hall Hk.
  destruct (reachable_wf rand _ _ _ _ _ _ _ Hc Hall) as (_ & Hfrom & _).
  destruct (reachable_all_indexed rand _ _ _ _ _ _ _ Hc Hall) as [_ Hrouted].
  split.
  - intros Hin. split; [by eapply Hfrom|by eapply Hrouted].
  - intros [Hin Hidx].
    destruct (insertAll_listed_all rand _ _ _ _ _ Hall key Hin) as (i & l & Hi & Hl & Hkey).
    assert (i = idx) as -> by congruence. congruence.
Qed.

Lemma buckets_partition_witness :
  ∃ s0 c1 s c,
    construct rand_index 5 0 = Some (s0, c1) ∧
    insertAll rand_index [10; 25; 7] s0 c1 = Some (s, c) ∧
    at_ (buckets s) 2 = Some [10; 25] ∧
    (25 ∈ [10; 25] ↔ 25 ∈ [10; 25; 7] ∧ bucketIndex 25 s = Some 2).
Proof.
  do 4 eexists. step H0. step H1. step H2.
  exact (buckets_partition rand_index 5 0 _ _ [10; 25; 7] _ _ 2 [10; 25] 25 H0 H1 H2).
Defined.

(** X8.  After an [insert] that returned true, the list of the bucket the key
    went to has no repeated key, and [search] finds every key of that list,
    the ones whose own [insert] had returned false included. *)
Theorem insert_true_bucket (rand : nat → Z) (n : Z) (c0 c1 c c' : nat) (ks : list Z)
    (key : Z) (s0 s s' : PerfectHashing) :
  construct rand n c0 = Some (s0, c1) →
  insertAll rand ks s0 c1 = Some (s, c) →
  insert rand key s c = Some (true, s', c') →
  ∃ idx keys,
    bucketIndex key s = Some idx ∧ at_ (buckets s') idx = Some keys ∧
    NoDup keys ∧ ∀ k, k ∈ keys → search k s' = Some true.
Proof.
  intros Hc Hall Hins.
  destruct (reachable_all_indexed rand _ _ _ _ _ _ _ Hc Hall) as [_ Hrouted].
  pose proof (insert_routed rand _ _ _ _ _ _ Hrouted Hins) as Hrouted'.
  pose proof (insert_bucketIndex rand key key _ _ _ _ _ Hins) as Hsame.
  pose proof Hins as (idx & keys & t & t' & Hidx & Hk & Ht & Hb & Hbs & Hss & _)%insert_inv.
  assert (Hk' : at_ (buckets s') idx = Some (keys ++ [key])).
  { rewrite Hbs. by eapply at_insert_eq. }
  exists idx, (keys ++ [key]). split_and!; [done|done| |].
  - assert (Hne : keys ++ [key] ≠ []) by (by destruct keys).
    eapply built_NoDup. by eapply buildTable_true.
  - intros k Hin. apply indexed_search.
    eapply insert_true_indexed; [exact Hins| |].
    + exists idx, (keys ++ [key]). split_and!; [by eapply Hrouted'|done|done].
    + rewrite Hsame, Hidx. by eapply Hrouted'.
Qed.

Lemma insert_true_bucket_witness :
  ∃ s0 c1 s c s' c',
    construct rand_three 5 0 = Some (s0, c1) ∧
    insertAll rand_three [10; 20] s0 c1 = Some (s, c) ∧
    insert rand_three 30 s c = Some (true, s', c') ∧
    ∃ idx keys,
      bucketIndex 30 s = Some idx ∧ at_ (buckets s') idx = Some keys ∧
      NoDup keys ∧ ∀ k, k ∈ keys → search k s' = Some true.
Proof.
  do 6 eexists. step H0. step H1. step H2.
  exact (insert_true_bucket rand_three 5 0 _ _ _ [10; 20] 30 _ _ _ H0 H1 H2).
Defined.

(** ** A bucket with a repeated key *)

Lemma insert_dup_bucket (rand : nat → Z) (k idx : Z) (keys : list Z)
    (s s' : PerfectHashing) (c c' : nat) (ok : bool) :
  wf s → at_ (buckets s) idx = Some keys → ¬ NoDup keys →
  insert rand k s c = Some (ok, s', c') →
  (bucketIndex k s = Some idx → ok = false) ∧
  at_ (secondLevel s') idx = at_ (secondLevel s) idx ∧
  ∃ keys', at_ (buckets s') idx = Some keys' ∧ ¬ NoDup keys'.
Proof.
  intros Hwf Hk Hdup Hins.
  pose proof Hins as (i & l & t & t' & Hi & Hl & Ht & Hb & Hbs & Hss & _)%insert_inv.
  pose proof (at_lt _ _ _ Hl) as Hrange.
  destruct (decide (i = idx)) as [->|Hne].
  - assert (l = keys) as -> by congruence.
    assert (Hdup' : ¬ NoDup (keys ++ [k])).
    { intros [HN _]%NoDup_app. by apply Hdup. }
    assert (ok = false) as ->.
    { destruct ok; [|done]. exfalso. apply Hdup'.
      assert (Hne : keys ++ [k] ≠ []) by (by destruct keys).
      eapply built_NoDup. by eapply buildTable_true. }
    split; [done|]. split.
    + by rewrite (insert_false_secondLevel rand _ _ _ _ _ Hwf Hins).
    + exists (keys ++ [k]). split; [|done]. rewrite Hbs. by eapply at_insert_eq.
  - split; [intros Hidx; congruence|]. split.
    + rewrite Hss. apply at_insert_ne; [lia|done].
    + exists keys. split; [|done]. rewrite Hbs, at_insert_ne; [done|lia|done].
Qed.

(** X9.  A bucket whose list holds a key twice is frozen.  From then on, over
    any sequence of inserts, every [insert] routed to that bucket returns
    false, the bucket's secondary table stays as it is, and so does the
    answer of [search] for every key routed to the bucket. *)
Theorem duplicate_freezes_bucket (rand : nat → Z) (n : Z) (c0 c1 c c2 : nat)
    (ks later : list Z) (s0 s s2 : PerfectHashing) (idx : Z) (keys : list Z) :
  construct rand n c0 = Some (s0, c1) →
  insertAll rand ks s0 c1 = Some (s, c) →
  at_ (buckets s) idx = Some keys → ¬ NoDup keys →
  insertAll rand later s c = Some (s2, c2) →
  at_ (secondLevel s2) idx = at_ (secondLevel s) idx ∧
  (∀ key, bucketIndex key s = Some idx → search key s2 = search key s) ∧
  ∀ k ok s3 c3,
    bucketIndex k s2 = Some idx →
    insert rand k s2 c2 = Some (ok, s3, c3) → ok = false.
Proof.
  intros Hc Hall Hk Hdup Hlater.
  destruct (reachable_wf rand _ _ _ _ _ _ _ Hc Hall) as (Hwf & _ & _).
  clear Hc Hall.
  assert (Hgen : at_ (secondLevel s2) idx = at_ (secondLevel s) idx ∧ wf s2 ∧
                 ∃ keys', at_ (buckets s2) idx = Some keys' ∧ ¬ NoDup keys').
  { revert s c keys Hwf Hk Hdup Hlater.
    induction later as [|k later IH]; intros s c keys Hwf Hk Hdup; simpl.
    - intros [= <- <-]. split_and!; [done|done|by exists keys].
    - destruct (insert rand k s c) as [[[ok s1] c1']|] eqn:Hins; simpl; [|done].
      intros Hlater.
      destruct (insert_dup_bucket rand k idx keys s s1 c c1' ok Hwf Hk Hdup Hins)
        as (_ & Hss & keys1 & Hk1 & Hdup1).
      destruct (IH s1 c1' keys1 (insert_wf rand _ _ _ _ _ _ Hwf Hins) Hk1 Hdup1 Hlater)
        as (Hss' & Hwf' & Hex).
      split_and!; [congruence|done|done]. }
  destruct Hgen as (Hss & Hwf2 & keys2 & Hk2 & Hdup2).
  split_and!; [done| |].
  - intros key Hidx. unfold search.
    rewrite (insertAll_bucketIndex rand _ _ _ _ _ _ Hlater), Hidx. simpl.
    by rewrite Hss.
  - intros k ok s3 c3 Hidx Hins.
    by destruct (insert_dup_bucket rand k idx keys2 s2 s3 c2 c3 ok Hwf2 Hk2 Hdup2 Hins)
      as (-> & _); [done|].
Qed.

(** 10 is inserted twice; the later inserts of 20 and 30 into the same
    bucket fail, and 20 is never found. *)
Lemma duplicate_freezes_bucket_witness :
  ∃ s0 c1 s c s2 c2 s3 c3,
    construct rand_scaled 5 0 = Some (s0, c1) ∧
    insertAll rand_scaled [10; 10] s0 c1 = Some (s, c) ∧
    at_ (buckets s) 3 = Some [10; 10] ∧
    insertAll rand_scaled [20] s c = Some (s2, c2) ∧
    bucketIndex 30 s2 = Some 3 ∧
    insert rand_scaled 30 s2 c2 = Some (false, s3, c3) ∧
    search 20 s2 = Some false ∧
    at_ (secondLevel s2) 3 = at_ (secondLevel s) 3.
Proof.
  do 8 eexists. step H0. step H1. step H2. step H3. step H4. step H5. step H6.
  refine (proj1 (duplicate_freezes_bucket rand_scaled 5 0 _ _ _ [10; 10] [20] _ _ _ 3
                   [10; 10] H0 H1 H2 _ H3)).
  intros HN. apply NoDup_cons in HN as [Hnot _]. apply Hnot. by left.
Defined.

(** ** The constructor *)

(** X4.  [PerfectHashing(n)].  A negative [n] makes the constructor fail (the
    [resize] throws).  Otherwise it makes three calls of [rand()] and gives
    [n] empty buckets with the level-1 modulus [PRIME], [a1] in
    [1, PRIME - 1] and [b1] in [0, PRIME - 1] (generator in range); no key is
    found in the fresh table, and with [n > 0] the search of any
    non-negative key returns false. *)
Theorem construct_fresh (rand : nat → Z) (n : Z) (c : nat) :
  (n < 0 → construct rand n c = None) ∧
  (0 ≤ n → (∀ i, 0 ≤ rand i ≤ RAND_MAX) →
   ∃ s0,
     construct rand n c = Some (s0, (c + 3)%nat) ∧
     primarySize s0 = n ∧
     buckets s0 = replicate (Z.to_nat n) [] ∧
     length (secondLevel s0) = Z.to_nat n ∧
     p1 s0 = PRIME ∧ 1 ≤ a1 s0 ≤ PRIME - 1 ∧ 0 ≤ b1 s0 ≤ PRIME - 1 ∧
     (∀ key, search key s0 ≠ Some true) ∧
     (0 < n → ∀ key, 0 ≤ key → search key s0 = Some false)).
Proof.
  split.
  - intros Hn. unfold construct. by destruct (decide (n < 0)).
  - intros Hn Hrange.
    destruct (construct rand n c) as [[s0 c1]|] eqn:Hc; cycle 1.
    { unfold construct in Hc. destruct (decide (n < 0)); [lia|done]. }
    pose proof (construct_wf rand _ _ _ _ Hc) as [Hwf _].
    pose proof (construct_nonneg rand Hrange _ _ _ _ Hc) as Hnn.
    pose proof Hc as (_ & -> & Hs0)%construct_inv.
    exists s0. split; [done|].
    assert (Hfalse : ∀ key, search key s0 ≠ Some true).
    { intros key Hs. unfold search in Hs.
      destruct (bucketIndex key s0) as [idx|]; simpl in Hs; [|done].
      destruct (at_ (secondLevel s0) idx) as [t|] eqn:Ht; simpl in Hs; [|done].
      rewrite Hs0 in Ht. simpl in Ht. by apply at_replicate in Ht as [-> _]. }
    pose proof (attempt_a_range rand Hrange c 0). pose proof (attempt_b_range rand Hrange c 0).
    assert (Ha1 : a1 s0 = attempt_a rand c 0) by (by rewrite Hs0).
    assert (Hb1 : b1 s0 = attempt_b rand c 0) by (by rewrite Hs0).
    split; [by rewrite Hs0|]. split; [by rewrite Hs0|].
    split; [by rewrite Hs0; simpl; rewrite length_replicate|].
    split; [by rewrite Hs0|]. rewrite Ha1, Hb1.
    split; [done|]. split; [done|]. split; [done|].
    intros Hpos key Hkey.
    destruct (search_is_Some key s0 Hwf Hnn) as [[|] Hs]; [by rewrite Hs0|done| |done].
    by apply Hfalse in Hs.
Qed.

Lemma construct_fresh_witness :
  0 ≤ 5 ∧ (∀ i, 0 ≤ rand_scaled i ≤ RAND_MAX) ∧
  ∃ s0,
    construct rand_scaled 5 0 = Some (s0, 3%nat) ∧
    primarySize s0 = 5 ∧
    buckets s0 = replicate (Z.to_nat 5) [] ∧
    length (secondLevel s0) = Z.to_nat 5 ∧
    p1 s0 = PRIME ∧ 1 ≤ a1 s0 ≤ PRIME - 1 ∧ 0 ≤ b1 s0 ≤ PRIME - 1 ∧
    (∀ key, search key s0 ≠ Some true) ∧
    (0 < 5 → ∀ key, 0 ≤ key → search key s0 = Some false).
Proof.
  apply conj_keep; [lia|intros Hn].
  apply conj_keep; [exact rand_scaled_range|intros Hr].
  exact (proj2 (construct_fresh rand_scaled 5 0) Hn Hr).
Defined.

(** ** [statistics] *)

Lemma sum_list_app (l1 l2 : list nat) :
  sum_list (l1 ++ l2) = (sum_list l1 + sum_list l2)%nat.
Proof. induction l1 as [|x l1 IH]; simpl; [done|]. rewrite IH. lia. Qed.

Lemma keyCount_insert (bs : list (list Z)) (i : nat) (keys : list Z) (key : Z) :
  bs !! i = Some keys →
  sum_list (length <$> <[i := keys ++ [key]]> bs) = S (sum_list (length <$> bs)).
Proof.
  intros Hi. rewrite insert_take_drop by (by eapply lookup_lt_Some).
  rewrite <- (take_drop_middle bs i keys Hi) at 3.
  rewrite !fmap_app, !sum_list_app. simpl. rewrite length_app. simpl. lia.
Qed.

Lemma insert_keyCount (rand : nat → Z) (key : Z) (s s' : PerfectHashing)
    (c c' : nat) (ok : bool) :
  insert rand key s c = Some (ok, s', c') → keyCount s' = S (keyCount s).
Proof.
  intros (idx & keys & t & t' & _ & Hk & _ & _ & Hbs & _)%insert_inv.
  unfold keyCount. rewrite Hbs. apply keyCount_insert.
  by apply at_Some in Hk as [_ Hk].
Qed.

Lemma insertAll_keyCount (rand : nat → Z) (ks : list Z) (s s' : PerfectHashing)
    (c c' : nat) :
  insertAll rand ks s c = Some (s', c') → keyCount s' = (keyCount s + length ks)%nat.
Proof.
  revert s c. induction ks as [|k ks IH]; intros s c; simpl.
  - intros [= <- <-]. lia.
  - destruct (insert rand k s c) as [[[ok s1] c1]|] eqn:Hins; simpl; [|done].
    intros ->%IH. rewrite (insert_keyCount _ _ _ _ _ _ _ Hins). lia.
Qed.

Lemma max_list_le_sum (ns : list nat) : (max_list ns ≤ sum_list ns)%nat.
Proof. induction ns as [|x ns IH]; simpl; lia. Qed.

(** The loop over the buckets from [i] on, where [rest] are the buckets
    still to be visited. *)
Lemma statisticsLoop_spec (visited rest : list (list Z)) (s : PerfectHashing)
    (totalKeys maxBucketSize : Z) :
  buckets s = visited ++ rest →
  0 ≤ totalKeys → 0 ≤ maxBucketSize →
  totalKeys + Z.of_nat (sum_list (length <$> rest)) ≤ INT_MAX →
  statisticsLoop (length rest) (Z.of_nat (length visited)) s totalKeys maxBucketSize =
  Some (totalKeys + Z.of_nat (sum_list (length <$> rest)),
        Z.max maxBucketSize (Z.of_nat (max_list (length <$> rest)))).
Proof.
  revert visited totalKeys maxBucketSize.
  induction rest as [|l rest IH]; intros visited tot mx Hbs Htot Hmx Hfit.
  - simpl. f_equal. f_equal; lia.
  - simpl in Hfit. change (list_fmap (list Z) nat length rest) with (length <$> rest) in Hfit.
    cbn [statisticsLoop length].
    assert (Hat : at_ (buckets s) (Z.of_nat (length visited)) = Some l).
    { apply at_Some. split; [lia|]. rewrite Nat2Z.id, Hbs.
      by rewrite lookup_app_r, Nat.sub_diag by lia. }
    rewrite Hat. cbn [mbind option_bind].
    pose proof (max_list_le_sum (length <$> rest)) as Hmax.
    rewrite !to_int_id by (unfold INT_MIN, INT_MAX in *; lia).
    replace (Z.of_nat (length visited) + 1) with (Z.of_nat (length (visited ++ [l])))
      by (rewrite length_app; simpl; lia).
    rewrite IH.
    + simpl. change (list_fmap (list Z) nat length rest) with (length <$> rest).
      f_equal. f_equal; lia.
    + by rewrite Hbs, <- app_assoc.
    + lia.
    + lia.
    + lia.
Qed.

(** X10.  [statistics] on a table reached from the constructor by inserting
    [ks] (fewer than 2^31 of them): [totalKeys] is the number of [insert]
    calls made, whether they returned true or false; [maxBucketSize] is at
    least the size of every bucket, at most [totalKeys], and is the size of
    one of the buckets when there is one. *)
Theorem statistics_spec (rand : nat → Z) (n : Z) (c0 c1 c : nat) (ks : list Z)
    (s0 s : PerfectHashing) :
  construct rand n c0 = Some (s0, c1) →
  insertAll rand ks s0 c1 = Some (s, c) →
  Z.of_nat (length ks) ≤ INT_MAX →
  ∃ maxBucketSize,
    statistics s = Some (Z.of_nat (length ks), maxBucketSize) ∧
    0 ≤ maxBucketSize ≤ Z.of_nat (length ks) ∧
    (∀ idx keys, at_ (buckets s) idx = Some keys →
       Z.of_nat (length keys) ≤ maxBucketSize) ∧
    (0 < n → ∃ idx keys, at_ (buckets s) idx = Some keys ∧
       Z.of_nat (length keys) = maxBucketSize).
Proof.
  intros Hc Hall Hfit.
  destruct (reachable_wf rand _ _ _ _ _ _ _ Hc Hall) as ((Hn & Hlb & _) & _ & Hsz).
  assert (Hcount : keyCount s = length ks).
  { rewrite (insertAll_keyCount _ _ _ _ _ _ Hall).
    apply construct_inv in Hc as (_ & _ & ->). unfold keyCount. simpl.
    rewrite fmap_replicate, sum_list_replicate. simpl. lia. }
  unfold keyCount in Hcount.
  pose proof (statisticsLoop_spec [] (buckets s) s 0 0 eq_refl ltac:(lia) ltac:(lia)
                ltac:(rewrite Hcount; lia)) as Hloop.
  simpl in Hloop. rewrite Hcount in Hloop.
  exists (Z.max 0 (Z.of_nat (max_list (length <$> buckets s)))).
  split.
  - unfold statistics. rewrite <- Hlb, Nat2Z.id. exact Hloop.
  - pose proof (max_list_le_sum (length <$> buckets s)) as Hle. rewrite Hcount in Hle.
    split; [lia|]. split.
    + intros idx keys [_ Hk]%at_Some.
      assert (length keys ∈ length <$> buckets s) as Hin.
      { apply list_elem_of_fmap. exists keys. split; [done|].
        by eapply list_elem_of_lookup_2. }
      apply max_list_elem_of_le in Hin. lia.
    + intros Hpos.
      assert (Hne : length <$> buckets s ≠ []).
      { destruct (buckets s); [simpl in Hlb; lia|done]. }
      apply max_list_elem_of in Hne.
      apply list_elem_of_fmap in Hne as (keys & Hlen & [i Hi]%list_elem_of_lookup).
      exists (Z.of_nat i), keys. split; [|lia].
      apply at_Some. split; [lia|]. by rewrite Nat2Z.id.
Qed.

(** Three inserts, one of which fails: [totalKeys] is 3. *)
Lemma statistics_spec_witness :
  ∃ s0 c1 s c,
    construct rand_three 5 0 = Some (s0, c1) ∧
    insertAll rand_three [10; 20; 30] s0 c1 = Some (s, c) ∧
    Z.of_nat (length [10; 20; 30]) ≤ INT_MAX ∧
    ∃ maxBucketSize,
      statistics s = Some (Z.of_nat (length [10; 20; 30]), maxBucketSize) ∧
      0 ≤ maxBucketSize ≤ Z.of_nat (length [10; 20; 30]) ∧
      (∀ idx keys, at_ (buckets s) idx = Some keys →
         Z.of_nat (length keys) ≤ maxBucketSize) ∧
      (0 < 5 → ∃ idx keys, at_ (buckets s) idx = Some keys ∧
         Z.of_nat (length keys) = maxBucketSize).
Proof.
  do 4 eexists. step H0. step H1.
  apply conj_keep; [unfold INT_MAX; simpl; lia|intros Hfit].
  exact (statistics_spec rand_three 5 0 _ _ [10; 20; 30] _ _ H0 H1 Hfit).
Defined.

(** ** [display] *)

Lemma contentsFrom_spec (j0 : Z) (tbl : list Z) (j x : Z) :
  (j, x) ∈ contentsFrom j0 tbl ↔
  ∃ i : nat, tbl !! i = Some x ∧ j = j0 + Z.of_nat i ∧ x ≠ -1.
Proof.
  revert j0. induction tbl as [|y rest IH]; intros j0; simpl.
  - split; [by intros ?%elem_of_nil|by intros (i & ? & _)].
  - destruct (decide (y = -1)) as [->|Hy].
    + rewrite IH. split.
      * intros (i & Hi & -> & Hx). exists (S i). split_and!; [done|lia|done].
      * intros ([|i] & Hi & -> & Hx); simpl in Hi; [congruence|].
        exists i. split_and!; [done|lia|done].
    + rewrite elem_of_cons, IH. split.
      * intros [[= -> ->]|(i & Hi & -> & Hx)].
        -- exists 0%nat. split_and!; [done|lia|done].
        -- exists (S i). split_and!; [done|lia|done].
      * intros ([|i] & Hi & -> & Hx); simpl in Hi.
        -- left. injection Hi as <-. f_equal. lia.
        -- right. exists i. split_and!; [done|lia|done].
Qed.

(** The pairs printed for a table whose slot array fits an [int]: the first
    ten slots that differ from -1. *)
Lemma displayTable_contents (t : SecondaryTable.t) (j x : Z) :
  Z.of_nat (length (SecondaryTable.table t)) ≤ INT_MAX →
  (j, x) ∈ shown_contents (displayTable t) ↔
  0 ≤ j < 10 ∧ at_ (SecondaryTable.table t) j = Some x ∧ x ≠ -1.
Proof.
  intros Hfit. unfold displayTable. cbn [shown_contents].
  rewrite to_int_id by (unfold INT_MIN, INT_MAX in *; lia).
  rewrite contentsFrom_spec. split.
  - intros (i & Hi & -> & Hx). apply lookup_take_Some in Hi as [Hi Hlt].
    split_and!; [lia|lia| |done].
    apply at_Some. split; [lia|]. replace (Z.to_nat (0 + Z.of_nat i)) with i by lia. done.
  - intros (Hj & [_ Hat]%at_Some & Hx). exists (Z.to_nat j).
    split_and!; [|lia|done].
    apply lookup_take_Some. split; [done|].
    apply lookup_lt_Some in Hat. lia.
Qed.

Lemma displayLoop_spec (visitedB restB : list (list Z))
    (visitedT restT : list SecondaryTable.t) (s : PerfectHashing) :
  buckets s = visitedB ++ restB → secondLevel s = visitedT ++ restT →
  length visitedB = length visitedT → length restB = length restT →
  ∃ reports,
    displayLoop (length restB) (Z.of_nat (length visitedB)) s = Some reports ∧
    length reports = length restB ∧
    ∀ (i : nat) keys t,
      restB !! i = Some keys → restT !! i = Some t →
      reports !! i =
        Some (Z.of_nat (length visitedB + i), keys,
              if decide (keys = []) then None else Some (displayTable t)).
Proof.
  revert visitedB visitedT restT.
  induction restB as [|l restB IH]; intros visitedB visitedT restT Hbs Hss Hv Hr.
  - exists []. split_and!; [done|done|]. intros i keys t Hi. by destruct i.
  - destruct restT as [|t0 restT]; [done|]. simpl in Hr.
    assert (Hatb : at_ (buckets s) (Z.of_nat (length visitedB)) = Some l).
    { apply at_Some. split; [lia|]. rewrite Nat2Z.id, Hbs.
      by rewrite lookup_app_r, Nat.sub_diag by lia. }
    assert (Hatt : at_ (secondLevel s) (Z.of_nat (length visitedB)) = Some t0).
    { apply at_Some. split; [lia|]. rewrite Nat2Z.id, Hss, Hv.
      by rewrite lookup_app_r, Nat.sub_diag by lia. }
    destruct (IH (visitedB ++ [l]) (visitedT ++ [t0]) restT) as (rs & Hloop & Hlen & Hrs).
    { by rewrite Hbs, <- app_assoc. }
    { by rewrite Hss, <- app_assoc. }
    { rewrite !length_app. simpl. lia. }
    { lia. }
    replace (Z.of_nat (length (visitedB ++ [l]))) with (Z.of_nat (length visitedB) + 1)
      in Hloop by (rewrite length_app; simpl; lia).
    assert (Hb : displayBucket (Z.of_nat (length visitedB)) s =
                 Some (Z.of_nat (length visitedB), l,
                       if decide (l = []) then None else Some (displayTable t0))).
    { unfold displayBucket. rewrite Hatb. simpl.
      destruct (decide (0 < Z.of_nat (length l))) as [Hpos|Hzero].
      - rewrite Hatt. simpl. destruct (decide (l = [])) as [->|]; [simpl in Hpos; lia|done].
      - destruct (decide (l = [])) as [|Hne]; [done|]. destruct l; [done|simpl in Hzero; lia]. }
    eexists. cbn [displayLoop length]. rewrite Hb. simpl. rewrite Hloop. simpl.
    split; [reflexivity|]. split; [simpl; lia|].
    intros [|i] keys t Hi Ht; simpl in *.
    + injection Hi as <-. injection Ht as <-. by rewrite Nat.add_0_r.
    + rewrite (Hrs i keys t Hi Ht). rewrite length_app. simpl.
      do 3 f_equal. lia.
Qed.

(** X11.  [display] on a table reached from the constructor by inserts.  It
    reads inside the vectors and reports every bucket with its index and
    its keys, and a table exactly for the buckets that have keys.  For such
    a bucket the pairs (j : x) it prints are the keys x other than -1 that
    the table indexes and whose slot j is below 10; the reported size is
    the square of the number of indexed keys, and "..." follows exactly
    when that size exceeds 10. *)
Theorem display_spec (rand : nat → Z) (n : Z) (c0 c1 c : nat) (ks : list Z)
    (s0 s : PerfectHashing) :
  construct rand n c0 = Some (s0, c1) →
  insertAll rand ks s0 c1 = Some (s, c) →
  ∃ reports,
    display s = Some reports ∧ Z.of_nat (length reports) = n ∧
    ∀ idx keys t,
      at_ (buckets s) idx = Some keys → at_ (secondLevel s) idx = Some t →
      (keys = [] → at_ reports idx = Some (idx, keys, None)) ∧
      (keys ≠ [] →
         ∃ pre,
           at_ reports idx = Some (idx, keys, Some (displayTable t)) ∧
           pre `prefix_of` keys ∧ pre ≠ [] ∧
           shown_size (displayTable t) =
             Z.of_nat (length pre) * Z.of_nat (length pre) ∧
           shown_p (displayTable t) = PRIME ∧
           shown_more (displayTable t) =
             bool_decide (10 < Z.of_nat (length pre) * Z.of_nat (length pre)) ∧
           ∀ j x, (j, x) ∈ shown_contents (displayTable t) ↔
             0 ≤ j < 10 ∧ x ≠ -1 ∧ x ∈ pre ∧ slotOf x t = Some j).
Proof.
  intros Hc Hall.
  destruct (reachable_wf rand _ _ _ _ _ _ _ Hc Hall) as ((Hn & Hlb & Hls & _) & _ & Hsz).
  destruct (reachable_all_indexed rand _ _ _ _ _ _ _ Hc Hall) as [Hind _].
  destruct (displayLoop_spec [] (buckets s) [] (secondLevel s) s eq_refl eq_refl eq_refl
              ltac:(lia)) as (reports & Hloop & Hlen & Hreports).
  exists reports. split_and!.
  - unfold display. rewrite <- Hlb, Nat2Z.id. exact Hloop.
  - lia.
  - intros idx keys t Hk Ht.
    pose proof Hk as [Hidx Hk']%at_Some. pose proof Ht as [_ Ht']%at_Some.
    pose proof (Hreports _ _ _ Hk' Ht') as Hrep. simpl in Hrep.
    rewrite Z2Nat.id in Hrep by done.
    assert (Hat : at_ reports idx =
                  Some (idx, keys, if decide (keys = []) then None else Some (displayTable t))).
    { by apply at_Some. }
    split.
    + intros ->. exact Hat.
    + intros Hne. destruct (decide (keys = [])) as [|_]; [done|].
      destruct (Hind _ _ _ Hk Ht) as (pre & Hprefix & Hpne & Hsize & Hfit & Hbuilt).
      destruct (Hbuilt (Hpne Hne)) as [Hb He].
      pose proof (built_length _ _ Hb) as Hblen.
      exists pre. split_and!; [done|done|by apply Hpne|done|exact (built_p _ _ Hb)| |].
      * unfold displayTable. cbn [shown_more]. by rewrite Hblen, Hsize.
      * intros j x. rewrite displayTable_contents by lia. split.
        -- intros (Hj & Hx & Hfill). destruct (He j x Hx Hfill) as [Hin Hs].
           split; [lia|]. split; [done|]. by split.
        -- intros (Hj & Hfill & Hin & Hs).
           destruct (built_slots _ _ Hb x Hin) as (h & Hs' & Hx).
           assert (h = j) as -> by congruence.
           split; [lia|]. by split.
Qed.

(** The bucket of 4 and 9 (bucket 0): the table [-1; 4; 9; -1] is shown as
    (1:4) (2:9). *)
Lemma display_spec_witness :
  ∃ s0 c1 s c,
    construct rand_index 5 0 = Some (s0, c1) ∧
    insertAll rand_index [4; 9] s0 c1 = Some (s, c) ∧
    ∃ reports,
      display s = Some reports ∧
      at_ reports 0 =
        Some (0, [4; 9], Some (mkTableReport 4 PRIME 5 5 [(1, 4); (2, 9)] false)) ∧
      Z.of_nat (length reports) = 5.
Proof.
  do 4 eexists. step H0. step H1.
  destruct (display_spec rand_index 5 0 _ _ [4; 9] _ _ H0 H1) as (reports & Hd & Hlen & _).
  exists reports. split; [exact Hd|]. split; [|exact Hlen].
  vm_compute in Hd. injection Hd as <-. reflexivity.
Defined.

(** ** Sequences of operations *)

Lemma bucket_le_keyCount (s : PerfectHashing) (idx : Z) (keys : list Z) :
  at_ (buckets s) idx = Some keys → (length keys ≤ keyCount s)%nat.
Proof.
  intros [_ Hk]%at_Some. unfold keyCount.
  etransitivity; [|apply max_list_le_sum].
  apply max_list_elem_of_le, list_elem_of_fmap. exists keys. split; [done|].
  by eapply list_elem_of_lookup_2.
Qed.

Section Sequences.

Variable rand : nat → Z.
Hypothesis rand_range : ∀ i, 0 ≤ rand i ≤ RAND_MAX.

Lemma construct_reached (n : Z) (c c1 : nat) (s0 : PerfectHashing) :
  0 < n → construct rand n c = Some (s0, c1) → reached [] s0.
Proof.
  intros Hn Hc.
  destruct (construct_wf rand _ _ _ _ Hc) as [Hwf Hfrom].
  destruct (construct_all_indexed rand _ _ _ _ Hc) as [Hind Hrouted].
  pose proof (construct_nonneg rand rand_range _ _ _ _ Hc) as Hnn.
  apply construct_inv in Hc as (_ & _ & ->).
  split; [done..|simpl; lia|].
  unfold keyCount. simpl. rewrite fmap_replicate, sum_list_replicate. simpl. lia.
Qed.

Lemma insert_reached (ks : list Z) (key : Z) (s s' : PerfectHashing)
    (c c' : nat) (ok : bool) :
  reached ks s → insert rand key s c = Some (ok, s', c') →
  reached (ks ++ [key]) s'.
Proof.
  intros [Hwf Hnn Hfrom Hind Hrouted Hn Hcount] Hins. split.
  - by eapply insert_wf.
  - by eapply (insert_nonneg rand rand_range).
  - by eapply insert_keys_from.
  - by eapply insert_all_indexed.
  - by eapply insert_routed.
  - by apply insert_inv in Hins as (? & ? & ? & ? & _ & _ & _ & _ & _ & _ & -> & _).
  - rewrite (insert_keyCount _ _ _ _ _ _ _ Hins), Hcount, length_app. simpl. lia.
Qed.

Lemma insertEach_insertAll (ks : list Z) (s s' : PerfectHashing) (c c' : nat)
    (oks : list bool) :
  insertEach rand ks s c = Some (oks, s', c') →
  insertAll rand ks s c = Some (s', c') ∧ length oks = length ks ∧
  ∀ (i : nat) k, ks !! i = Some k → oks !! i = Some true → indexed k s'.
Proof.
  revert s c oks. induction ks as [|k0 ks IH]; intros s c oks; simpl.
  - intros [= <- <- <-]. split_and!; [done|done|]. intros i k Hi. by destruct i.
  - destruct (insert rand k0 s c) as [[[ok s1] c1]|] eqn:Hins; simpl; [|done].
    destruct (insertEach rand ks s1 c1) as [[[oks' s2] c2]|] eqn:Heach; simpl; [|done].
    intros [= <- <- <-]. destruct (IH _ _ _ Heach) as (Hall & Hlen & Hidx).
    split_and!; [done|simpl; lia|].
    intros [|i] k Hi Hok; simpl in *.
    + injection Hi as <-. injection Hok as ->.
      eapply insertAll_indexed; [|exact Hall].
      eapply insert_true_indexed; [exact Hins| |done]. by eapply insert_listed_new.
    + by eapply Hidx.
Qed.

Lemma insertEach_reached (pre ks : list Z) (s s' : PerfectHashing) (c c' : nat)
    (oks : list bool) :
  reached pre s → insertEach rand ks s c = Some (oks, s', c') →
  reached (pre ++ ks) s'.
Proof.
  revert pre s c oks. induction ks as [|k0 ks IH]; intros pre s c oks Hr; simpl.
  - intros [= <- <- <-]. by rewrite app_nil_r.
  - destruct (insert rand k0 s c) as [[[ok s1] c1]|] eqn:Hins; simpl; [|done].
    destruct (insertEach rand ks s1 c1) as [[[oks' s2] c2]|] eqn:Heach; simpl; [|done].
    intros [= <- <- <-]. rewrite cons_middle, app_assoc.
    eapply IH; [|exact Heach]. by eapply insert_reached.
Qed.

(** Inserting non-negative keys into a table that holds non-negative keys
    is defined as long as the squares of the bucket sizes fit an [int]. *)
Lemma insertEach_is_Some (pre ks : list Z) (s : PerfectHashing) (c : nat) :
  reached pre s →
  (∀ k, k ∈ pre → 0 ≤ k) → (∀ k, k ∈ ks → 0 ≤ k) →
  Z.of_nat (length pre + length ks) < 46340 →
  is_Some (insertEach rand ks s c).
Proof.
  revert pre s c. induction ks as [|k0 ks IH]; intros pre s c Hr Hpre Hks Hlen; [done|].
  simpl in Hlen. cbn [insertEach].
  destruct (insert_is_Some rand rand_range k0 s c pre) as [[[ok s1] c1] Hins].
  - apply Hr.
  - apply Hr.
  - apply Hr.
  - apply Hr.
  - done.
  - apply Hks. by left.
  - intros idx keys Hk. pose proof (bucket_le_keyCount _ _ _ Hk) as Hle.
    rewrite (reached_count _ _ Hr) in Hle. unfold INT_MAX.
    pose proof (Z.mul_le_mono_nonneg (Z.of_nat (length keys) + 1) 46340
                  (Z.of_nat (length keys) + 1) 46340). lia.
  - rewrite Hins. simpl.
    destruct (IH (pre ++ [k0]) s1 c1) as [[[oks s2] c2] Heach].
    + by eapply insert_reached.
    + intros k [Hk|Hk]%elem_of_app; [by apply Hpre|].
      apply list_elem_of_singleton in Hk as ->. apply Hks. by left.
    + intros k Hk. apply Hks. by right.
    + rewrite length_app. simpl. lia.
    + by rewrite Heach.
Qed.

(** [search] of a non-negative key in a reached table. *)
Lemma reached_search (ks : list Z) (s : PerfectHashing) (key : Z) :
  reached ks s → 0 ≤ key →
  is_Some (search key s) ∧ (key ∉ ks → search key s = Some false).
Proof.
  intros [Hwf Hnn Hfrom Hind Hrouted Hn Hcount] Hkey.
  pose proof (search_is_Some key s Hwf Hnn Hn Hkey) as Hs.
  split; [done|]. intros Hnew.
  destruct (bucketIndex_in_bounds key s Hwf Hnn Hn Hkey)
    as (idx & keys & t & Hidx & _ & Hk & Ht).
  destruct (Hind _ _ _ Hk Ht) as (pre & Hpre).
  rewrite (search_indexes key idx pre keys s t Hidx Ht Hpre Hs); [|unfold EMPTY; lia].
  rewrite bool_decide_eq_false_2; [done|].
  intros Hin. apply Hnew. eapply Hfrom; [exact Hk|]. by eapply indexes_subset.
Qed.

Lemma searchEach_lookup (ks : list Z) (s : PerfectHashing) (rs : list bool) :
  searchEach ks s = Some rs →
  length rs = length ks ∧
  ∀ (i : nat) k, ks !! i = Some k → search k s = rs !! i.
Proof.
  unfold searchEach. intros HF%mapM_Some_1. split.
  - symmetry. by eapply Forall2_length.
  - intros i k Hi. destruct (Forall2_lookup_l _ _ _ _ _ HF Hi) as (r & Hr & Hs).
    congruence.
Qed.

Lemma searchEach_is_Some (pre ks : list Z) (s : PerfectHashing) :
  reached pre s → (∀ k, k ∈ ks → 0 ≤ k) → is_Some (searchEach ks s).
Proof.
  intros Hr Hks. apply mapM_is_Some_2, Forall_forall. intros k Hk.
  by apply (reached_search pre s k Hr (Hks k Hk)).
Qed.

Lemma reached_statistics (ks : list Z) (s : PerfectHashing) :
  reached ks s → Z.of_nat (length ks) ≤ INT_MAX → is_Some (statistics s).
Proof.
  intros [(Hn & Hlb & _) _ _ _ _ _ Hcount] Hfit. unfold keyCount in Hcount.
  pose proof (statisticsLoop_spec [] (buckets s) s 0 0 eq_refl ltac:(lia) ltac:(lia)
                ltac:(rewrite Hcount; lia)) as Hloop.
  unfold statistics. rewrite <- Hlb, Nat2Z.id. eexists. exact Hloop.
Qed.

Lemma reached_display (ks : list Z) (s : PerfectHashing) :
  reached ks s → is_Some (display s).
Proof.
  intros [(Hn & Hlb & Hls & _) _ _ _ _ _ _].
  destruct (displayLoop_spec [] (buckets s) [] (secondLevel s) s eq_refl eq_refl eq_refl
              ltac:(lia)) as (reports & Hloop & _).
  unfold display. rewrite <- Hlb, Nat2Z.id. eexists. exact Hloop.
Qed.

End Sequences.

Lemma insertAll_calls (rand : nat → Z) (ks : list Z) (s s' : PerfectHashing) (c c' : nat) :
  insertAll rand ks s c = Some (s', c') → (c ≤ c' ≤ c + 300 * length ks)%nat.
Proof.
  revert s c. induction ks as [|k ks IH]; intros s c; simpl.
  - intros [= <- <-]. lia.
  - destruct (insert rand k s c) as [[[ok s1] c1]|] eqn:Hins; simpl; [|done].
    intros Hall%IH.
    apply insert_inv in Hins as (? & ? & ? & ? & _ & _ & _ & Hb%buildTable_calls & _).
    lia.
Qed.

(** X12.  Inserting non-negative keys is safe.  Into a fresh table of [n > 0]
    buckets (generator in range), any sequence of fewer than 46340 inserts
    of non-negative keys runs without an out-of-range access or an
    overflow; it makes at most 300 calls of [rand()] per insert; afterwards
    every key whose insert returned true is found, and the search of every
    non-negative key is defined. *)
Theorem inserts_defined (rand : nat → Z) (n : Z) (c0 c1 : nat) (ks : list Z)
    (s0 : PerfectHashing) :
  (∀ i, 0 ≤ rand i ≤ RAND_MAX) → 0 < n →
  construct rand n c0 = Some (s0, c1) →
  (∀ k, k ∈ ks → 0 ≤ k) →
  Z.of_nat (length ks) < 46340 →
  ∃ oks s c,
    insertEach rand ks s0 c1 = Some (oks, s, c) ∧
    insertAll rand ks s0 c1 = Some (s, c) ∧
    length oks = length ks ∧
    (c1 ≤ c ≤ c1 + 300 * length ks)%nat ∧
    (∀ (i : nat) k, ks !! i = Some k → oks !! i = Some true → search k s = Some true) ∧
    ∀ k, 0 ≤ k → is_Some (search k s).
Proof.
  intros Hrange Hn Hc Hks Hlen.
  pose proof (construct_reached rand Hrange _ _ _ _ Hn Hc) as Hr0.
  destruct (insertEach_is_Some rand Hrange [] ks s0 c1 Hr0) as [[[oks s] c] Heach];
    [by intros k ?%elem_of_nil|done|simpl; lia|].
  pose proof (insertEach_reached rand Hrange [] ks _ _ _ _ _ Hr0 Heach) as Hr.
  destruct (insertEach_insertAll rand _ _ _ _ _ _ Heach) as (Hall & Hlen' & Hidx).
  exists oks, s, c. split_and!; [done|done|done|..].
  - by apply insertAll_calls in Hall as [? _].
  - by apply insertAll_calls in Hall as [_ ?].
  - intros i k Hi Hok. apply indexed_search. by eapply Hidx.
  - intros k Hk. by apply (reached_search _ _ k Hr Hk).
Qed.

Lemma inserts_defined_witness :
  ∃ s0 c1,
    (∀ i, 0 ≤ rand_three i ≤ RAND_MAX) ∧ 0 < 5 ∧
    construct rand_three 5 0 = Some (s0, c1) ∧
    (∀ k, k ∈ [10; 20; 30] → 0 ≤ k) ∧
    Z.of_nat (length [10; 20; 30]) < 46340 ∧
    ∃ oks s c,
      insertEach rand_three [10; 20; 30] s0 c1 = Some (oks, s, c) ∧
      insertAll rand_three [10; 20; 30] s0 c1 = Some (s, c) ∧
      length oks = length [10; 20; 30] ∧
      (c1 ≤ c ≤ c1 + 300 * length [10; 20; 30])%nat ∧
      (∀ (i : nat) k, [10; 20; 30] !! i = Some k → oks !! i = Some true →
         search k s = Some true) ∧
      ∀ k, 0 ≤ k → is_Some (search k s).
Proof.
  do 2 eexists.
  apply conj_keep; [exact rand_three_range|intros Hr].
  apply conj_keep; [lia|intros Hn]. step H0.
  apply conj_keep.
  { intros k Hk. rewrite !elem_of_cons in Hk.
    destruct Hk as [->|[->|[->|Hk]]]; [lia..|by apply elem_of_nil in Hk]. }
  intros Hks. apply conj_keep; [simpl; lia|intros Hlen].
  exact (inserts_defined rand_three 5 0 _ [10; 20; 30] _ Hr Hn H0 Hks Hlen).
Defined.

(** ** The demonstration program *)

(** X13.  [main], for every run of the generator (in range) and whatever the
    inserts return: the program runs without an out-of-range access; it
    prints 7, 5, 3 and 11 answers; the keys 100 and 50 of test 2 and the
    key 99 of test 4 are not found; and every key reported as inserted in
    test 1 or test 3 is found in test 4. *)
Theorem main_spec (rand : nat → Z) (c : nat) :
  (∀ i, 0 ≤ rand i ≤ RAND_MAX) →
  ∃ test1 test2 test3 test4,
    main rand c = Some (test1, test2, test3, test4) ∧
    length test1 = 7%nat ∧ length test2 = 5%nat ∧
    length test3 = 3%nat ∧ length test4 = 11%nat ∧
    test2 !! 1%nat = Some false ∧ test2 !! 3%nat = Some false ∧
    test4 !! 10%nat = Some false ∧
    (∀ i : nat, test1 !! i = Some true → test4 !! i = Some true) ∧
    (∀ i : nat, test3 !! i = Some true → test4 !! (7 + i)%nat = Some true).
Proof.
  intros Hrange. unfold main.
  assert (Hpos : ∀ (l : list Z) k, k ∈ l → Forall (λ x, 0 ≤ x) l → 0 ≤ k).
  { intros l k Hk HF. by eapply (proj1 (Forall_forall _ _) HF). }
  set (ks1 := [10; 25; 35; 45; 15; 20; 30]). set (ks3 := [50; 60; 70]).
  set (l2 := [25; 100; 15; 50; 30]).
  set (l4 := [10; 25; 35; 45; 15; 20; 30; 50; 60; 70; 99]).
  assert (H1 : Forall (λ x, 0 ≤ x) ks1) by (repeat constructor; lia).
  assert (H3 : Forall (λ x, 0 ≤ x) ks3) by (repeat constructor; lia).
  assert (H2 : Forall (λ x, 0 ≤ x) l2) by (repeat constructor; lia).
  assert (H4 : Forall (λ x, 0 ≤ x) l4) by (repeat constructor; lia).
  destruct (construct rand 5 c) as [[s0 c1]|] eqn:Hc; cycle 1.
  { unfold construct in Hc. by destruct (decide (5 < 0)). }
  cbn [mbind option_bind].
  pose proof (construct_reached rand Hrange 5 _ _ _ ltac:(lia) Hc) as Hr0.
  destruct (insertEach_is_Some rand Hrange [] ks1 s0 c1 Hr0) as [[[test1 s1] c2] He1];
    [by intros k ?%elem_of_nil|by intros k Hk; eapply Hpos|simpl; lia|].
  rewrite He1. cbn [mbind option_bind].
  pose proof (insertEach_reached rand Hrange [] ks1 _ _ _ _ _ Hr0 He1) as Hr1.
  simpl app in Hr1.
  destruct (insertEach_insertAll rand _ _ _ _ _ _ He1) as (Hall1 & Hlen1 & Hidx1).
  destruct (reached_display _ _ Hr1) as [d1 ->]. cbn [mbind option_bind].
  destruct (reached_statistics _ _ Hr1) as [st1 ->]; [unfold INT_MAX; simpl; lia|].
  cbn [mbind option_bind].
  destruct (searchEach_is_Some ks1 l2 s1 Hr1) as [test2 Hs2];
    [by intros k Hk; eapply Hpos|].
  rewrite Hs2. cbn [mbind option_bind].
  destruct (searchEach_lookup _ _ _ Hs2) as [Hlen2 Hlook2].
  destruct (insertEach_is_Some rand Hrange ks1 ks3 s1 c2 Hr1) as [[[test3 s2] c3] He3];
    [by intros k Hk; eapply Hpos|by intros k Hk; eapply Hpos|simpl; lia|].
  rewrite He3. cbn [mbind option_bind].
  pose proof (insertEach_reached rand Hrange ks1 ks3 _ _ _ _ _ Hr1 He3) as Hr2.
  destruct (insertEach_insertAll rand _ _ _ _ _ _ He3) as (Hall3 & Hlen3 & Hidx3).
  destruct (reached_display _ _ Hr2) as [d2 ->]. cbn [mbind option_bind].
  destruct (reached_statistics _ _ Hr2) as [st2 ->]; [unfold INT_MAX; simpl; lia|].
  cbn [mbind option_bind].
  destruct (searchEach_is_Some (ks1 ++ ks3) l4 s2 Hr2) as [test4 Hs4];
    [by intros k Hk; eapply Hpos|].
  rewrite Hs4. cbn [mbind option_bind].
  destruct (searchEach_lookup _ _ _ Hs4) as [Hlen4 Hlook4].
  assert (Hfresh : ∀ (l : list Z) k, k ∉ l ↔ Forall (λ x, k ≠ x) l).
  { intros l k. rewrite Forall_forall. split; [intros Hn x Hx ->; done|].
    intros Hall Hk. by apply (Hall k Hk). }
  exists test1, test2, test3, test4.
  split; [done|]. split; [done|]. split; [done|]. split; [done|]. split; [done|].
  split; [|split; [|split; [|split]]].
  - rewrite <- (Hlook2 1%nat 100 eq_refl).
    apply (reached_search ks1 s1 100 Hr1); [lia|].
    apply Hfresh. repeat constructor; lia.
  - rewrite <- (Hlook2 3%nat 50 eq_refl).
    apply (reached_search ks1 s1 50 Hr1); [lia|].
    apply Hfresh. repeat constructor; lia.
  - rewrite <- (Hlook4 10%nat 99 eq_refl).
    apply (reached_search (ks1 ++ ks3) s2 99 Hr2); [lia|].
    apply Hfresh. repeat constructor; lia.
  - intros i Hi.
    assert (is_Some (ks1 !! i)) as [k Hk].
    { apply lookup_lt_is_Some. rewrite <- Hlen1. by eapply lookup_lt_Some. }
    rewrite <- (Hlook4 i k).
    + apply indexed_search. eapply insertAll_indexed; [|exact Hall3].
      by eapply Hidx1.
    + change l4 with (ks1 ++ ks3 ++ [99]). by apply lookup_app_l_Some.
  - intros i Hi.
    assert (is_Some (ks3 !! i)) as [k Hk].
    { apply lookup_lt_is_Some. rewrite <- Hlen3. by eapply lookup_lt_Some. }
    rewrite <- (Hlook4 (7 + i)%nat k).
    + apply indexed_search. by eapply Hidx3.
    + change l4 with (ks1 ++ ks3 ++ [99]).
      rewrite lookup_app_r by (simpl; lia).
      replace (7 + i - length ks1)%nat with i by (simpl; lia).
      by apply lookup_app_l_Some.
Qed.

(** One run of the program: it prints FOUND, NOT FOUND, FOUND, NOT FOUND,
    FOUND in test 2. *)
Lemma main_spec_witness :
  (∀ i, 0 ≤ rand_scaled i ≤ RAND_MAX) ∧
  ∃ test1 test2 test3 test4,
    main rand_scaled 0 = Some (test1, test2, test3, test4) ∧
    length test1 = 7%nat ∧ length test2 = 5%nat ∧
    length test3 = 3%nat ∧ length test4 = 11%nat ∧
    test2 !! 1%nat = Some false ∧ test2 !! 3%nat = Some false ∧
    test4 !! 10%nat = Some false ∧
    (∀ i : nat, test1 !! i = Some true → test4 !! i = Some true) ∧
    (∀ i : nat, test3 !! i = Some true → test4 !! (7 + i)%nat = Some true).
Proof.
  apply conj_keep; [exact rand_scaled_range|intros Hr].
  exact (main_spec rand_scaled 0 Hr).
Defined.
